(** * The in-memory latest-value store of [routing/datastore.go]

    A shallow embedding of [InMemoryStore] and its operations, followed by
    the properties of the store that the specification states.

    Conventions of the embedding:
    - Go maps are stdpp [gmap]s; the set [map[string]struct{}] is a [gset].
    - [*Tracking] values are addresses into an explicit heap of [Tracking]
      cells, so that one cell shared by several index buckets stays one cell.
    - A channel is known by its identity only; a send [ch <- r] is recorded
      as an event [Send ch r] in the trace the operation returns.  Blocking
      is not modelled.
    - [int64] values are [Z]; the atomic increment wraps around explicitly.
    - [time.Now().Unix()] is an input of [Write]: [now i] is the reading the
      clock gives while the [i]-th datapoint of the batch is handled. *)

From Stdlib Require Import ZArith String Ascii Decimal DecimalString DecimalN.
From stdpp Require Import gmap strings list fin_maps.

Local Open Scope Z_scope.
Set Warnings "-clear-no-such-hyp".

(** ** Data model *)

Definition chan := nat.
Definition ptr := nat.

(** Go's [error]: [None] is [nil], [Some msg] is [errors.New(msg)]. *)
Definition error := option string.

Record Key := mkKey { Key_Node : string; Key_Measurement : string }.

Global Instance Key_eq_dec : EqDecision Key.
Proof. solve_decision. Defined.

Global Instance Key_countable : Countable Key.
Proof.
  refine (inj_countable' (λ k, (Key_Node k, Key_Measurement k))
                         (λ p, mkKey p.1 p.2) _).
  by intros [].
Defined.

(** Modelled from the spec: the declaration of [Data] is not in the source;
    the fields are the ones the store reads and writes ([Measurement],
    [Value], and [Timestamp], which receives [time.Now().Unix()], an
    [int64]). *)
Record Data := mkData {
  Data_Measurement : string;
  Data_Value : string;
  Data_Timestamp : Z
}.

(** Modelled from the spec: the declaration of [Reply] is not in the source;
    the store builds it from [RequestId], [Node] and [Datapoints].  A nil
    slice and an empty slice are both the empty list. *)
Record Reply := mkReply {
  Reply_RequestId : string;
  Reply_Node : string;
  Reply_Datapoints : list Data
}.

(** Modelled from the spec: the declaration of [Request] is not in the
    source; the store reads [Node], [Measurements] and [ReplyChan]. *)
Record Request := mkRequest {
  Request_Node : string;
  Request_Measurements : list string;
  Request_ReplyChan : chan
}.

(** Modelled from the spec: the declaration of the [Write] struct is not in
    the source; the store reads [Node] and [Datapoints].  It is named
    [WriteRequest] here because [Write] is the method. *)
Record WriteRequest := mkWrite {
  Write_Node : string;
  Write_Datapoints : list Data
}.

Record Tracking := mkTracking {
  Tracking_requestId : string;
  Tracking_reply : chan;
  Tracking_subs : list Key
}.

(** The store.  [heap] is not a field of the Go struct: it holds the
    [Tracking] cells that the [*Tracking] pointers of [tracking] and
    [subscription] point to.  The three mutexes guard against concurrent
    callers and have no counterpart in a sequential run. *)
Record InMemoryStore := mkStore {
  datastore : gmap string (gmap string Data);
  tracking : gmap string ptr;
  subscription : gmap Key (list ptr);
  nextId : Z;
  heap : list Tracking
}.

(** One send on a channel. *)
Record Send := mkSend { Send_chan : chan; Send_reply : Reply }.

(** What a call leaves behind: the two results the method returns, the
    store after the call, and the sends it made, oldest first. *)
Record Outcome := mkOutcome {
  out_err : error;
  out_reply : Reply;
  out_store : InMemoryStore;
  out_sent : list Send
}.

Global Instance Data_eq_dec : EqDecision Data.
Proof. solve_decision. Defined.

Global Instance Reply_eq_dec : EqDecision Reply.
Proof. solve_decision. Defined.

Global Instance Send_eq_dec : EqDecision Send.
Proof. solve_decision. Defined.

Definition zeroReply : Reply := mkReply "" "" [].

(** ** Request ids *)

(** [atomic.AddInt64] on a two's complement 64-bit integer. *)
Definition wrap64 (z : Z) : Z := (z + 2 ^ 63) `mod` 2 ^ 64 - 2 ^ 63.

Definition decimal (n : N) : string := NilEmpty.string_of_uint (N.to_uint n).

Fixpoint zeros (n : nat) : string :=
  match n with
  | O => EmptyString
  | S n' => String "0" (zeros n')
  end.

(** Left padding with zeros up to a minimum width; longer strings are kept. *)
Definition zero_pad (width : nat) (s : string) : string :=
  zeros (width - String.length s) +:+ s.

(** [fmt.Sprintf("%07d", z)]: the sign takes one of the seven columns. *)
Definition fmt_07d (z : Z) : string :=
  if z <? 0 then "-" +:+ zero_pad 6 (decimal (Z.to_N (- z)))
  else zero_pad 7 (decimal (Z.to_N z)).

(** Reading a numeral back: leading zeros do not count. *)
Definition parse (s : string) : option N :=
  N.of_uint <$> NilEmpty.uint_of_string s.

Definition parse_signed (s : string) : option Z :=
  match parse s with
  | Some n => Some (Z.of_N n)
  | None =>
      match s with
      | String "-" s' => (λ n, - Z.of_N n) <$> parse s'
      | _ => None
      end
  end.

Definition set_nextId (m : InMemoryStore) (n : Z) : InMemoryStore :=
  mkStore (datastore m) (tracking m) (subscription m) n (heap m).

Definition requestId (m : InMemoryStore) : string * InMemoryStore :=
  let newId := wrap64 (nextId m + 1) in
  ("REQ" +:+ fmt_07d newId, set_nextId m newId).

(** ** Operations *)

Definition NewInMemoryStore : InMemoryStore := mkStore ∅ ∅ ∅ 0 [].

Definition add_sub (k : Key) (t : Tracking) : Tracking :=
  mkTracking (Tracking_requestId t) (Tracking_reply t) (Tracking_subs t ++ [k]).

(** The loop of [Subscribe] over [r.Measurements]: the cell at [t] gets the
    key appended to its [subs], and [t] is appended to the key's bucket. *)
Fixpoint subscribe_loop (node : string) (t : ptr) (mes : list string)
    (subs : gmap Key (list ptr)) (hp : list Tracking)
    : gmap Key (list ptr) * list Tracking :=
  match mes with
  | [] => (subs, hp)
  | me :: rest =>
      let k := mkKey node me in
      subscribe_loop node t rest
        (<[k := default [] (subs !! k) ++ [t]]> subs)
        (alter (add_sub k) t hp)
  end.

(** [Subscribe]: the request id is drawn first and goes into the reply on
    both paths; [t] is the address of the new cell [&Tracking{...}]. *)
Definition Subscribe (m : InMemoryStore) (r : Request)
    : Outcome :=
  let '(rId, m1) := requestId m in
  let reply := mkReply rId "" [] in
  match datastore m1 !! Request_Node r with
  | Some _ =>
      let t := length (heap m1) in
      let '(subs, hp) :=
        subscribe_loop (Request_Node r) t (Request_Measurements r)
          (subscription m1)
          (heap m1 ++ [mkTracking rId (Request_ReplyChan r) []]) in
      mkOutcome None reply
        (mkStore (datastore m1) (<[rId := t]> (tracking m1)) subs (nextId m1)
           hp)
        []
  | None =>
      mkOutcome
        (Some "Could not fetch requested data, node does not exists"%string)
        reply m1 []
  end.

(** The loop of [ReadImmediate] over [r.Measurements]. *)
Fixpoint read_loop (node : gmap string Data) (mes : list string)
    (data : list Data) : list Data :=
  match mes with
  | [] => data
  | me :: rest =>
      match node !! me with
      | Some v => read_loop node rest (data ++ [v])
      | None => read_loop node rest data
      end
  end.

Definition ReadImmediate (m : InMemoryStore) (r : Request)
    : Outcome :=
  match datastore m !! Request_Node r with
  | Some node =>
      let data := read_loop node (Request_Measurements r) [] in
      mkOutcome None zeroReply m
        [mkSend (Request_ReplyChan r) (mkReply "" (Request_Node r) data)]
  | None =>
      mkOutcome (Some "Could not find requested information"%string)
        zeroReply m []
  end.

Definition keymap (dataslice : list Data) : gset string :=
  foldl (λ datapoints d, {[ Data_Measurement d ]} ∪ datapoints) ∅ dataslice.

(** One delivery per cell of the key's bucket, in bucket order.  A Go
    pointer always points to a cell; an address outside the heap, which no
    reachable store holds, is passed over. *)
Fixpoint publish_loop (hp : list Tracking) (key : Key) (value : string)
    (timestamp : Z) (ts : list ptr) : list Send :=
  match ts with
  | [] => []
  | t :: rest =>
      match hp !! t with
      | Some tr =>
          mkSend (Tracking_reply tr)
            (mkReply (Tracking_requestId tr) (Key_Node key)
               [mkData (Key_Measurement key) value timestamp])
          :: publish_loop hp key value timestamp rest
      | None => publish_loop hp key value timestamp rest
      end
  end.

Definition publish (subs : gmap Key (list ptr)) (hp : list Tracking)
    (key : Key) (value : string) (timestamp : Z) : list Send :=
  match subs !! key with
  | Some ts => publish_loop hp key value timestamp ts
  | None => []
  end.

(** The pruning loop of [Write], [for _, datas := range node], run over the
    entries in the order [entries].  An entry deleted before the iteration
    reaches it is not produced (Go's rule for deletion during [range]). *)
Fixpoint prune_range (wnode : string) (datapoints : gset string)
    (entries : list (string * Data))
    (node : gmap string Data) (subs : gmap Key (list ptr))
    : gmap string Data * gmap Key (list ptr) :=
  match entries with
  | [] => (node, subs)
  | (k, datas) :: rest =>
      match node !! k with
      | None => prune_range wnode datapoints rest node subs
      | Some _ =>
          if decide (Data_Measurement datas ∈ datapoints)
          then prune_range wnode datapoints rest node subs
          else prune_range wnode datapoints rest
                 (delete (Data_Measurement datas) node)
                 (delete (mkKey wnode (Data_Measurement datas)) subs)
      end
  end.

Definition stamp (now : Z) (data : Data) : Data :=
  if Data_Timestamp data <? 1
  then mkData (Data_Measurement data) (Data_Value data) now
  else data.

(** The second loop of [Write], over [w.Datapoints]; [i] is the position of
    the head of [dps] in the batch. *)
Fixpoint write_loop (wnode : string) (now : nat → Z)
    (subs : gmap Key (list ptr)) (hp : list Tracking)
    (i : nat) (dps : list Data) (node : gmap string Data)
    : gmap string Data * list Send :=
  match dps with
  | [] => (node, [])
  | data :: rest =>
      let data' := stamp (now i) data in
      let out :=
        publish subs hp (mkKey wnode (Data_Measurement data'))
          (Data_Value data') (Data_Timestamp data') in
      let '(node', outs) :=
        write_loop wnode now subs hp (S i) rest
          (<[Data_Measurement data' := data']> node) in
      (node', out ++ outs)
  end.

(** [Write]: the set of names in the batch, the node's bucket (made on the
    first write to the node), the pruning loop, the storing loop with its
    deliveries, and last the request id of the reply.  Go leaves the order
    of [range] over a map open; the entries are taken here in the order of
    [map_to_list], and [prune_range_order] shows that on a bucket of a
    reachable store every order ends in the same bucket and index. *)
Definition Write (m : InMemoryStore) (now : nat → Z) (w : WriteRequest)
    : Outcome :=
  let datapoints := keymap (Write_Datapoints w) in
  let node := default ∅ (datastore m !! Write_Node w) in
  let '(node1, subs1) :=
    prune_range (Write_Node w) datapoints (map_to_list node) node
      (subscription m) in
  let '(node2, out) :=
    write_loop (Write_Node w) now subs1 (heap m) 0 (Write_Datapoints w)
      node1 in
  let m1 :=
    mkStore (<[Write_Node w := node2]> (datastore m)) (tracking m) subs1
      (nextId m) (heap m) in
  let '(rId, m2) := requestId m1 in
  mkOutcome None (mkReply rId "" []) m2 out.

(** [Cancel]: the removal from the index is commented out in the source;
    only the tracking table entry goes. *)
Definition Cancel (m : InMemoryStore) (requestId : string)
    : error * InMemoryStore :=
  match tracking m !! requestId with
  | Some _ =>
      (None,
       mkStore (datastore m) (delete requestId (tracking m)) (subscription m)
         (nextId m) (heap m))
  | None => (Some ("No subscription found for " +:+ requestId), m)
  end.

Definition NodeList (m : InMemoryStore) : list string :=
  (map_to_list (datastore m)).*1.

Definition SourceList (m : InMemoryStore) (node : string)
    : error * list string :=
  match datastore m !! node with
  | None => (Some ("Could not find node " +:+ node), [])
  | Some keystore => (None, (map_to_list keystore).*1)
  end.

(** ** Runs of the store *)

Inductive Op :=
  | OpSubscribe (r : Request)
  | OpReadImmediate (r : Request)
  | OpWrite (now : nat → Z) (w : WriteRequest)
  | OpCancel (requestId : string)
  | OpNodeList
  | OpSourceList (node : string).

(** The store an operation leaves behind. *)
Definition step (m : InMemoryStore) (op : Op) : InMemoryStore :=
  match op with
  | OpSubscribe r => out_store (Subscribe m r)
  | OpReadImmediate r => out_store (ReadImmediate m r)
  | OpWrite now w => out_store (Write m now w)
  | OpCancel requestId => (Cancel m requestId).2
  | OpNodeList => m
  | OpSourceList _ => m
  end.

(** The error an operation returns. *)
Definition op_err (m : InMemoryStore) (op : Op) : error :=
  match op with
  | OpSubscribe r => out_err (Subscribe m r)
  | OpReadImmediate r => out_err (ReadImmediate m r)
  | OpWrite now w => out_err (Write m now w)
  | OpCancel requestId => (Cancel m requestId).1
  | OpNodeList => None
  | OpSourceList node => (SourceList m node).1
  end.

(** The sends an operation makes. *)
Definition op_sent (m : InMemoryStore) (op : Op) : list Send :=
  match op with
  | OpSubscribe r => out_sent (Subscribe m r)
  | OpReadImmediate r => out_sent (ReadImmediate m r)
  | OpWrite now w => out_sent (Write m now w)
  | _ => []
  end.

(** The request ids an operation hands out: the [RequestId] of the reply
    that [Subscribe] and [Write] return. *)
Definition op_ids (m : InMemoryStore) (op : Op) : list string :=
  match op with
  | OpSubscribe r => [Reply_RequestId (out_reply (Subscribe m r))]
  | OpWrite now w => [Reply_RequestId (out_reply (Write m now w))]
  | _ => []
  end.

Definition run (ops : list Op) (m : InMemoryStore) : InMemoryStore :=
  foldl step m ops.

Fixpoint issued_ids (ops : list Op) (m : InMemoryStore) : list string :=
  match ops with
  | [] => []
  | op :: rest => op_ids m op ++ issued_ids rest (step m op)
  end.

Definition mints (op : Op) : bool :=
  match op with
  | OpSubscribe _ | OpWrite _ _ => true
  | _ => false
  end.

Definition reachable (m : InMemoryStore) : Prop :=
  ∃ ops, m = run ops NewInMemoryStore.

(** A node has been written to in a run. *)
Definition written (node : string) (ops : list Op) : Prop :=
  ∃ now w, OpWrite now w ∈ ops ∧ Write_Node w = node.

(** The measurement names of a batch. *)
Definition names (dps : list Data) : list string := Data_Measurement <$> dps.

(** How often a measurement is named in a request. *)
Definition occurrences (me : string) (mes : list string) : nat :=
  length (filter (λ x, x = me) mes).

(** ** Invariants of reachable stores *)

(** Every entry of a node's bucket is filed under its own measurement. *)
Definition keyed (node : gmap string Data) : Prop :=
  ∀ k d, node !! k = Some d → Data_Measurement d = k.

(** Every address held by the index or the tracking table is allocated. *)
Definition closed (m : InMemoryStore) : Prop :=
  (∀ k ts t, subscription m !! k = Some ts → t ∈ ts →
     (t < length (heap m))%nat) ∧
  (∀ r t, tracking m !! r = Some t → (t < length (heap m))%nat).

Definition store_inv (m : InMemoryStore) : Prop :=
  (∀ n node, datastore m !! n = Some node → keyed node) ∧ closed m.

(** The calls that return an error. *)
Definition op_fails (m : InMemoryStore) (op : Op) : Prop :=
  match op with
  | OpSubscribe r | OpReadImmediate r => datastore m !! Request_Node r = None
  | OpCancel requestId => tracking m !! requestId = None
  | OpSourceList node => datastore m !! node = None
  | OpWrite _ _ | OpNodeList => False
  end.

(** How many request ids a run hands out. *)
Fixpoint minted (ops : list Op) : nat :=
  match ops with
  | [] => 0
  | op :: rest => (if mints op then 1 else 0) + minted rest
  end.

(** The id the store renders for counter value [i]. *)
Definition id_of (i : Z) : string := "REQ" +:+ fmt_07d i.

(** A store in which nothing has happened but [n] draws of a request id. *)
Definition drawn (n : Z) : InMemoryStore := mkStore ∅ ∅ ∅ n [].

(** ** Sample stores *)

Definition clock : nat → Z := λ _, 1700000000.

(** Node ["n"] with measurements ["m"] and ["k"], and one subscription to
    ["m"] on channel 7. *)
Definition sample_ops : list Op :=
  [OpWrite clock (mkWrite "n" [mkData "m" "v" 5; mkData "k" "w" 0]);
   OpSubscribe (mkRequest "n" ["m"] 7%nat)].

Definition sample_store : InMemoryStore := run sample_ops NewInMemoryStore.

(** Node ["n"] with measurement ["m"] and no subscription. *)
Definition written_ops : list Op :=
  [OpWrite clock (mkWrite "n" [mkData "m" "v" 5])].

Definition written_store : InMemoryStore := run written_ops NewInMemoryStore.

(** [written_store] with a subscription on channel 7 to ["b"], a measurement
    that is not stored for node ["n"]. *)
Definition pending_store : InMemoryStore :=
  out_store (Subscribe written_store (mkRequest "n" ["b"] 7%nat)).

(** No tracking allocated below address [L] is in the bucket of [key]. *)
Definition severed (L : nat) (key : Key) (m : InMemoryStore) : Prop :=
  (L ≤ length (heap m))%nat ∧
  ∀ ts t, subscription m !! key = Some ts → t ∈ ts → (L ≤ t)%nat.

(** The tracking table, the index and the cells agree: an id of the table
    leads to a cell with that id; an address in the bucket of a key leads to
    a cell that lists the key; and the keys of one cell name one node, which
    the value table holds, while its id renders a counter value. *)
Definition linked (m : InMemoryStore) : Prop :=
  (∀ rid t, tracking m !! rid = Some t →
     ∃ tr, heap m !! t = Some tr ∧ Tracking_requestId tr = rid) ∧
  (∀ key ts t, subscription m !! key = Some ts → t ∈ ts →
     ∃ tr, heap m !! t = Some tr ∧ key ∈ Tracking_subs tr) ∧
  (∀ t tr, heap m !! t = Some tr →
     (∃ z, Tracking_requestId tr = id_of z) ∧
     ∃ n, is_Some (datastore m !! n) ∧
          ∀ k, k ∈ Tracking_subs tr → Key_Node k = n).


(** ** Rendering of the counter *)

Section Rendering.

Local Open Scope string_scope.

Lemma parse_decimal n : parse (decimal n) = Some n.
Proof.
  unfold parse, decimal. rewrite NilEmpty.usu. simpl.
  by rewrite DecimalN.Unsigned.of_to.
Qed.

Lemma parse_zeros k s : parse (zeros k +:+ s) = parse s.
Proof.
  induction k as [|k IH]; [done|].
  revert IH. unfold parse. simpl.
  destruct (NilEmpty.uint_of_string (zeros k +:+ s)),
    (NilEmpty.uint_of_string s); simpl; try done.
Qed.

Lemma parse_zero_pad w n : parse (zero_pad w (decimal n)) = Some n.
Proof. unfold zero_pad. by rewrite parse_zeros, parse_decimal. Qed.

Lemma parse_signed_fmt z : parse_signed (fmt_07d z) = Some z.
Proof.
  unfold parse_signed, fmt_07d. destruct (Z.ltb_spec z 0).
  - set (body := zero_pad 6 _).
    change ("-" +:+ body) with (String "-" body).
    assert (parse (String "-" body) = None) as ->.
    { unfold parse. simpl. by destruct (NilEmpty.uint_of_string _). }
    subst body. rewrite parse_zero_pad. simpl. f_equal. lia.
  - rewrite parse_zero_pad. f_equal. lia.
Qed.

Lemma fmt_07d_inj a b : fmt_07d a = fmt_07d b → a = b.
Proof.
  intros E. apply (f_equal parse_signed) in E.
  rewrite !parse_signed_fmt in E. congruence.
Qed.

Lemma length_zeros_app k s :
  String.length (zeros k +:+ s) = (k + String.length s)%nat.
Proof. induction k as [|k IH]; simpl; [done|]. by rewrite IH. Qed.

Lemma length_zero_pad w s :
  String.length (zero_pad w s) = (w `max` String.length s)%nat.
Proof. unfold zero_pad. rewrite length_zeros_app. lia. Qed.

Lemma length_string_of_uint d :
  String.length (NilEmpty.string_of_uint d) = nb_digits d.
Proof. induction d; simpl; congruence. Qed.

Lemma of_uint_acc_lower l acc :
  (N.pos acc * 10 ^ N.of_nat (nb_digits l) ≤ N.pos (Pos.of_uint_acc l acc))%N.
Proof.
  revert acc. induction l as [|l IH|l IH|l IH|l IH|l IH|l IH|l IH|l IH|l IH|l IH];
    intros acc; simpl nb_digits; simpl Pos.of_uint_acc;
    [simpl; lia|..];
    (etrans; [|apply IH]);
    rewrite Nat2N.inj_succ, N.pow_succ_r'; nia.
Qed.

Lemma unorm_D0_fixed l : unorm (D0 l) = D0 l → l = Nil.
Proof.
  rewrite DecimalFacts.unorm_D0. intros E.
  assert (l = Nil ∨ l ≠ Nil) as [|Hl] by (destruct l; auto); [done|].
  pose proof (DecimalFacts.nb_digits_unorm l Hl) as Hle.
  rewrite E in Hle. simpl in Hle. lia.
Qed.

Local Ltac digit_case Hof Hn :=
  simpl in Hof; simpl nb_digits;
  match type of Hof with
  | N.pos (Pos.of_uint_acc ?l ?a) = _ =>
      pose proof (of_uint_acc_lower l a) as Hlow;
      rewrite Hof in Hlow;
      assert (10 ^ N.of_nat (nb_digits l) < 10 ^ N.of_nat _)%N as Hpow
        by (eapply N.le_lt_trans; [|exact Hn]; (etrans; [|exact Hlow]); nia);
      apply N.pow_lt_mono_r_iff in Hpow; lia
  end.

(** A numeral below [10 ^ k] has at most [k] digits. *)
Lemma length_decimal n k :
  (0 < k)%nat → (n < 10 ^ N.of_nat k)%N → (String.length (decimal n) ≤ k)%nat.
Proof.
  intros Hk Hn. unfold decimal. rewrite length_string_of_uint.
  pose proof (DecimalN.Unsigned.of_to n) as Hof.
  pose proof (DecimalN.Unsigned.to_of (N.to_uint n)) as Hto.
  rewrite Hof in Hto. symmetry in Hto.
  destruct (N.to_uint n) as [|l|l|l|l|l|l|l|l|l|l] eqn:Ed;
    [simpl; lia
    |apply unorm_D0_fixed in Hto; subst l; simpl; lia
    |digit_case Hof Hn..].
Qed.

Lemma length_fmt_07d (z : Z) :
  (0 ≤ z ≤ 9999999)%Z → String.length (fmt_07d z) = 7%nat.
Proof.
  intros Hz. unfold fmt_07d. destruct (Z.ltb_spec z 0); [lia|].
  rewrite length_zero_pad.
  pose proof (length_decimal (Z.to_N z) 7) as Hlen.
  assert (Z.to_N z < 10 ^ N.of_nat 7)%N by (simpl; lia).
  lia.
Qed.

End Rendering.

(** ** The loops *)

Lemma read_loop_omap (node : gmap string Data) mes data :
  read_loop node mes data = data ++ omap (λ me, node !! me) mes.
Proof.
  revert data. induction mes as [|me mes IH]; intros data; simpl.
  - by rewrite app_nil_r.
  - destruct (node !! me); rewrite IH; [by rewrite <- app_assoc|done].
Qed.

Lemma elem_of_keymap x dps : x ∈ keymap dps ↔ x ∈ names dps.
Proof.
  unfold keymap, names.
  assert (∀ acc : gset string,
    x ∈ foldl (λ datapoints d, {[ Data_Measurement d ]} ∪ datapoints) acc dps
    ↔ x ∈ acc ∨ x ∈ Data_Measurement <$> dps) as H.
  { induction dps as [|d dps IH]; intros acc; simpl.
    - set_solver.
    - rewrite IH. set_solver. }
  rewrite H. set_solver.
Qed.

Lemma occurrences_cons me x mes :
  occurrences me (x :: mes) =
  if decide (x = me) then S (occurrences me mes) else occurrences me mes.
Proof. unfold occurrences. rewrite filter_cons. by case_decide. Qed.

Lemma occurrences_absent me mes : me ∉ mes → occurrences me mes = 0%nat.
Proof.
  induction mes as [|x mes IH]; [done|].
  rewrite not_elem_of_cons, occurrences_cons. intros [? ?].
  case_decide; [congruence|auto].
Qed.

Lemma occurrences_present me mes : me ∈ mes → (0 < occurrences me mes)%nat.
Proof.
  induction mes as [|x mes IH]; [by rewrite elem_of_nil|].
  rewrite elem_of_cons, occurrences_cons. intros [->|?].
  - rewrite decide_True by done. lia.
  - case_decide; [lia|auto].
Qed.

Lemma subscribe_loop_index node t mes : ∀ subs hp k,
  (subscribe_loop node t mes subs hp).1 !! k =
  if decide (Key_Node k = node ∧ Key_Measurement k ∈ mes)
  then Some (default [] (subs !! k)
             ++ replicate (occurrences (Key_Measurement k) mes) t)
  else subs !! k.
Proof.
  induction mes as [|me mes IH]; intros subs hp k; simpl.
  - case_decide as H; [|done]. destruct H as [_ H]. by apply elem_of_nil in H.
  - rewrite IH, occurrences_cons.
    destruct (decide (k = mkKey node me)) as [->|Hk]; simpl.
    + rewrite !lookup_insert_eq. simpl.
      rewrite (decide_True (P := me = me)) by done.
      rewrite (decide_True (P := _ ∧ me ∈ me :: mes)) by set_solver.
      case_decide as Hin.
      * by rewrite <- app_assoc.
      * rewrite occurrences_absent by naive_solver. done.
    + rewrite lookup_insert_ne by done.
      destruct k as [kn km]; simpl in *.
      destruct (decide (kn = node)) as [->|Hn].
      * assert (me ≠ km) by congruence.
        rewrite (decide_False (P := me = km)) by done.
        repeat case_decide; set_solver.
      * rewrite !decide_False by naive_solver. done.
Qed.

Lemma subscribe_loop_heap node mes : ∀ subs h tr,
  (subscribe_loop node (length h) mes subs (h ++ [tr])).2 =
  h ++ [mkTracking (Tracking_requestId tr) (Tracking_reply tr)
          (Tracking_subs tr ++ (mkKey node <$> mes))].
Proof.
  induction mes as [|me mes IH]; intros subs h tr; simpl.
  - rewrite app_nil_r. by destruct tr.
  - replace (alter (add_sub (mkKey node me)) (length h) (h ++ [tr]))
      with (h ++ [add_sub (mkKey node me) tr]).
    + rewrite IH. simpl. by rewrite <- app_assoc.
    + rewrite <- (Nat.add_0_r (length h)) at 1. by rewrite alter_app_r.
Qed.

Section Pruning.

Variables (wnode : string) (datapoints : gset string).

(** Pruning only ever deletes. *)
Lemma prune_range_shrinks entries : ∀ node subs,
  (∀ k, (prune_range wnode datapoints entries node subs).1 !! k = None
        ∨ (prune_range wnode datapoints entries node subs).1 !! k = node !! k) ∧
  (∀ key, (prune_range wnode datapoints entries node subs).2 !! key = None
          ∨ (prune_range wnode datapoints entries node subs).2 !! key = subs !! key).
Proof.
  induction entries as [|[k0 d0] entries IH]; intros node subs; simpl.
  - auto.
  - destruct (node !! k0) eqn:E0; [|apply IH].
    case_decide; [apply IH|].
    destruct (IH (delete (Data_Measurement d0) node)
                 (delete (mkKey wnode (Data_Measurement d0)) subs))
      as [IH1 IH2].
    split.
    + intros k. destruct (IH1 k) as [->| ->]; [by left|].
      rewrite lookup_delete. case_decide; auto.
    + intros key. destruct (IH2 key) as [->| ->]; [by left|].
      rewrite lookup_delete. case_decide; auto.
Qed.

(** Buckets of other nodes, and of measurements the batch names, stay. *)
Lemma prune_range_keeps entries : ∀ node subs key,
  Key_Node key ≠ wnode ∨ Key_Measurement key ∈ datapoints →
  (prune_range wnode datapoints entries node subs).2 !! key = subs !! key.
Proof.
  induction entries as [|[k0 d0] entries IH]; intros node subs key Hkey;
    simpl; [done|].
  destruct (node !! k0); [|by apply IH].
  case_decide as Hin; [by apply IH|].
  rewrite IH by done. apply lookup_delete_ne.
  intros <-. simpl in Hkey. naive_solver.
Qed.

Local Ltac split_decide :=
  repeat case_decide; try done; exfalso;
  rewrite ?elem_of_cons in *; naive_solver.

(** What pruning leaves when every entry is filed under its own name. *)
Lemma prune_range_spec entries : ∀ node subs,
  (∀ k d, (k, d) ∈ entries → Data_Measurement d = k) →
  (∀ k, (prune_range wnode datapoints entries node subs).1 !! k =
        if decide (k ∈ entries.*1 ∧ k ∉ datapoints) then None
        else node !! k) ∧
  (∀ key, (prune_range wnode datapoints entries node subs).2 !! key =
          if decide (Key_Node key = wnode
                     ∧ Key_Measurement key ∈ entries.*1
                     ∧ is_Some (node !! Key_Measurement key)
                     ∧ Key_Measurement key ∉ datapoints)
          then None else subs !! key).
Proof.
  induction entries as [|[k0 d0] entries IH]; intros node subs Hk; simpl.
  - split; intros; repeat case_decide; set_solver.
  - assert (Data_Measurement d0 = k0) as Hd0 by (apply Hk; set_solver).
    assert (∀ k d, (k, d) ∈ entries → Data_Measurement d = k) as Hk'
      by (intros; apply Hk; set_solver).
    rewrite Hd0. clear Hk Hd0.
    destruct (node !! k0) eqn:E0; [case_decide as Hin|].
    + destruct (IH node subs Hk') as [IH1 IH2]. clear IH Hk'.
      split; [intros k; rewrite IH1|intros key; rewrite IH2];
        clear IH1 IH2; split_decide.
    + destruct (IH (delete k0 node) (delete (mkKey wnode k0) subs) Hk')
        as [IH1 IH2]. clear IH Hk'.
      split.
      * intros k. rewrite IH1. clear IH1 IH2.
        destruct (decide (k = k0)) as [->|Hne].
        -- rewrite lookup_delete_eq.
           rewrite (decide_True (P := k0 ∈ k0 :: _ ∧ _)) by set_solver.
           by case_decide.
        -- rewrite lookup_delete_ne by done. split_decide.
      * intros key. rewrite IH2. clear IH1 IH2.
        destruct (decide (key = mkKey wnode k0)) as [->|Hne]; simpl.
        -- rewrite !lookup_delete_eq.
           rewrite (decide_True (P := _ ∧ k0 ∈ k0 :: _ ∧ _)).
           ++ by case_decide.
           ++ rewrite E0. set_solver.
        -- assert (Key_Node key = wnode → Key_Measurement key ≠ k0)
             by (destruct key; simpl in *; congruence).
           destruct (decide (Key_Node key = wnode)).
           ++ rewrite !lookup_delete_ne by naive_solver. split_decide.
           ++ rewrite (lookup_delete_ne subs) by congruence. split_decide.
    + destruct (IH node subs Hk') as [IH1 IH2]. clear IH Hk'.
      split; [intros k; rewrite IH1|intros key; rewrite IH2]; clear IH1 IH2.
      * destruct (decide (k = k0)) as [->|Hne].
        -- rewrite E0. by repeat case_decide.
        -- split_decide.
      * assert (¬ is_Some (node !! k0)) by (rewrite E0; by intros [? ?]).
        destruct (decide (Key_Measurement key = k0)) as [Heq|?].
        -- rewrite Heq in *. split_decide.
        -- split_decide.
Qed.

End Pruning.

Lemma stamp_Measurement now d :
  Data_Measurement (stamp now d) = Data_Measurement d.
Proof. unfold stamp. by case_match. Qed.

Lemma stamp_given now d : 1 ≤ Data_Timestamp d → stamp now d = d.
Proof. unfold stamp. intros. by rewrite (proj2 (Z.ltb_ge _ _)). Qed.

Lemma stamp_unset now d :
  Data_Timestamp d < 1 →
  stamp now d = mkData (Data_Measurement d) (Data_Value d) now.
Proof. unfold stamp. intros. by rewrite (proj2 (Z.ltb_lt _ _)). Qed.

Section WriteLoop.

Variables (wnode : string) (now : nat → Z).
Variables (subs : gmap Key (list ptr)) (hp : list Tracking).

Lemma write_loop_other dps : ∀ i0 node k,
  k ∉ names dps →
  (write_loop wnode now subs hp i0 dps node).1 !! k = node !! k.
Proof.
  induction dps as [|d dps IH]; intros i0 node k Hk; simpl; [done|].
  unfold names in Hk. rewrite fmap_cons, not_elem_of_cons in Hk.
  destruct Hk as [Hne Hk].
  destruct (write_loop _ _ _ _ _ dps _) as [node' outs] eqn:E. simpl.
  replace node' with (node', outs).1 by done. rewrite <- E, IH by done.
  rewrite lookup_insert_ne; [done|]. by rewrite stamp_Measurement.
Qed.

(** The last datapoint of the batch for a measurement is the stored one. *)
Lemma write_loop_last dps : ∀ i0 node i d,
  dps !! i = Some d →
  (∀ j d', (i < j)%nat → dps !! j = Some d' →
           Data_Measurement d' ≠ Data_Measurement d) →
  (write_loop wnode now subs hp i0 dps node).1 !! Data_Measurement d =
  Some (stamp (now (i0 + i)%nat) d).
Proof.
  induction dps as [|d0 dps IH]; intros i0 node i d Hi Hlast; [done|].
  simpl.
  destruct (write_loop _ _ _ _ _ dps _) as [node' outs] eqn:E. simpl.
  replace node' with (node', outs).1 by done. rewrite <- E. clear E.
  destruct i as [|i]; simpl in Hi.
  - injection Hi as ->. rewrite write_loop_other.
    + rewrite stamp_Measurement, lookup_insert_eq. by rewrite Nat.add_0_r.
    + unfold names. intros Hin. apply list_elem_of_fmap in Hin.
      destruct Hin as (d' & Hm & Hin).
      apply list_elem_of_lookup in Hin. destruct Hin as [j Hj].
      apply (Hlast (S j) d'); [lia|done|done].
  - rewrite (IH (S i0) _ i d Hi).
    + f_equal. f_equal. f_equal. lia.
    + intros j d' Hj. apply (Hlast (S j)). lia.
Qed.

Lemma write_loop_keyed dps : ∀ i0 node,
  keyed node → keyed (write_loop wnode now subs hp i0 dps node).1.
Proof.
  induction dps as [|d dps IH]; intros i0 node Hnode; simpl; [done|].
  destruct (write_loop _ _ _ _ _ dps _) as [node' outs] eqn:E. simpl.
  replace node' with (node', outs).1 by done. rewrite <- E. apply IH.
  intros k x. rewrite lookup_insert. case_decide as Hk.
  - intros [= <-]. done.
  - apply Hnode.
Qed.

End WriteLoop.

(** ** The operations, unfolded *)

Lemma Subscribe_missing m r :
  datastore m !! Request_Node r = None →
  Subscribe m r =
  mkOutcome (Some "Could not fetch requested data, node does not exists"%string)
    (mkReply (requestId m).1 "" [])
    (set_nextId m (wrap64 (nextId m + 1))) [].
Proof. unfold Subscribe. simpl. by intros ->. Qed.

Lemma Subscribe_found m r :
  is_Some (datastore m !! Request_Node r) →
  Subscribe m r =
  mkOutcome None (mkReply (requestId m).1 "" [])
    (mkStore (datastore m)
       (<[(requestId m).1 := length (heap m)]> (tracking m))
       (subscribe_loop (Request_Node r) (length (heap m))
          (Request_Measurements r) (subscription m)
          (heap m ++ [mkTracking (requestId m).1 (Request_ReplyChan r) []])).1
       (wrap64 (nextId m + 1))
       (heap m ++ [mkTracking (requestId m).1 (Request_ReplyChan r)
                     (mkKey (Request_Node r) <$> Request_Measurements r)]))
    [].
Proof.
  intros [node Hnode]. unfold Subscribe. simpl. rewrite Hnode.
  pose proof (subscribe_loop_heap (Request_Node r) (Request_Measurements r)
    (subscription m) (heap m)
    (mkTracking ("REQ" +:+ fmt_07d (wrap64 (nextId m + 1)))
       (Request_ReplyChan r) [])) as Hheap.
  destruct (subscribe_loop _ _ _ _ _) as [subs hp]. simpl in *.
  by rewrite Hheap.
Qed.

Lemma Write_unfold m now w :
  let node := default ∅ (datastore m !! Write_Node w) in
  let pr :=
    prune_range (Write_Node w) (keymap (Write_Datapoints w))
      (map_to_list node) node (subscription m) in
  let wl :=
    write_loop (Write_Node w) now pr.2 (heap m) 0 (Write_Datapoints w) pr.1 in
  Write m now w =
  mkOutcome None (mkReply (requestId m).1 "" [])
    (mkStore (<[Write_Node w := wl.1]> (datastore m)) (tracking m) pr.2
       (wrap64 (nextId m + 1)) (heap m))
    wl.2.
Proof.
  unfold Write. simpl.
  destruct (prune_range _ _ _ _ _) as [node1 subs1]. simpl.
  by destruct (write_loop _ _ _ _ _ _ _) as [node2 out].
Qed.

(** ** Reachable stores keep the invariants *)

Lemma run_snoc ops op m : run (ops ++ [op]) m = step (run ops m) op.
Proof. unfold run. by rewrite foldl_app. Qed.

Lemma run_app ops1 ops2 m : run (ops1 ++ ops2) m = run ops2 (run ops1 m).
Proof. unfold run. by rewrite foldl_app. Qed.

Lemma keyed_pruned wnode datapoints entries (node : gmap string Data) subs :
  keyed node → keyed (prune_range wnode datapoints entries node subs).1.
Proof.
  intros Hnode k d Hk.
  destruct (prune_range_shrinks wnode datapoints entries node subs) as [H _].
  destruct (H k) as [E|E]; rewrite E in Hk; [done|by apply Hnode].
Qed.

Lemma Subscribe_inv m r : store_inv m → store_inv (out_store (Subscribe m r)).
Proof.
  intros [Hkeyed [Hsub Htrack]].
  destruct (datastore m !! Request_Node r) eqn:E.
  - rewrite Subscribe_found by eauto. simpl.
    split; [done|]. split; simpl.
    + intros k ts t. rewrite subscribe_loop_index, length_app. simpl.
      case_decide.
      * intros [= <-]. rewrite elem_of_app. intros [Hin|Hin].
        -- destruct (subscription m !! k) eqn:Ek; simpl in Hin.
           ++ specialize (Hsub _ _ _ Ek Hin). lia.
           ++ by apply elem_of_nil in Hin.
        -- apply elem_of_replicate in Hin. lia.
      * intros Ek Hin. specialize (Hsub _ _ _ Ek Hin). lia.
    + intros rid t. rewrite length_app, lookup_insert. simpl.
      case_decide.
      * intros [= <-]. lia.
      * intros Et. specialize (Htrack _ _ Et). lia.
  - by rewrite Subscribe_missing.
Qed.

Lemma Write_inv m now w : store_inv m → store_inv (out_store (Write m now w)).
Proof.
  intros [Hkeyed [Hsub Htrack]]. rewrite Write_unfold. simpl.
  split; [|split]; simpl.
  - intros n node. rewrite lookup_insert. case_decide.
    + intros [= <-]. apply write_loop_keyed, keyed_pruned.
      destruct (datastore m !! Write_Node w) eqn:E; simpl.
      * by eapply Hkeyed.
      * intros k d. by rewrite lookup_empty.
    + apply Hkeyed.
  - intros k ts t Hk.
    destruct (prune_range_shrinks (Write_Node w) (keymap (Write_Datapoints w))
      (map_to_list (default ∅ (datastore m !! Write_Node w)))
      (default ∅ (datastore m !! Write_Node w)) (subscription m)) as [_ H].
    destruct (H k) as [E|E]; rewrite E in Hk; [done|]. by eapply Hsub.
  - done.
Qed.

Lemma Cancel_inv m rid : store_inv m → store_inv (Cancel m rid).2.
Proof.
  intros [Hkeyed [Hsub Htrack]]. unfold Cancel.
  destruct (tracking m !! rid); [|done].
  split; [done|]. split; simpl; [done|].
  intros r t. rewrite lookup_delete. case_decide; [done|]. apply Htrack.
Qed.

Lemma step_inv m op : store_inv m → store_inv (step m op).
Proof.
  destruct op; simpl; auto using Subscribe_inv, Write_inv, Cancel_inv.
  unfold ReadImmediate. by case_match.
Qed.

Lemma run_inv ops : ∀ m, store_inv m → store_inv (run ops m).
Proof.
  induction ops as [|op ops IH]; intros m Hm; [done|].
  apply IH, step_inv, Hm.
Qed.

Lemma reachable_inv m : reachable m → store_inv m.
Proof.
  intros [ops ->]. apply run_inv. split; [|split]; simpl.
  - intros n node. by rewrite lookup_empty.
  - intros k ts t. by rewrite lookup_empty.
  - intros r t. by rewrite lookup_empty.
Qed.

Lemma reachable_step m op : reachable m → reachable (step m op).
Proof. intros [ops ->]. exists (ops ++ [op]). by rewrite run_snoc. Qed.

Lemma reachable_run ops m : reachable m → reachable (run ops m).
Proof. intros [ops0 ->]. exists (ops0 ++ ops). by rewrite run_app. Qed.

(** ** ReadImmediate *)

(** C7.  [ReadImmediate] on a node that the value table does not hold
    returns the not-found error and sends nothing.  On a node it holds, it
    returns no error and sends exactly one reply on the caller's channel:
    the current [Data] of the requested measurements that the node has, in
    request order, the others left out. *)
Theorem ReadImmediate_reply m r :
  match datastore m !! Request_Node r with
  | None =>
      out_err (ReadImmediate m r)
        = Some "Could not find requested information"%string ∧
      out_sent (ReadImmediate m r) = []
  | Some node =>
      out_err (ReadImmediate m r) = None ∧
      out_sent (ReadImmediate m r) =
        [mkSend (Request_ReplyChan r)
           (mkReply "" (Request_Node r)
              (omap (λ me, node !! me) (Request_Measurements r)))]
  end.
Proof.
  unfold ReadImmediate. destruct (datastore m !! Request_Node r); simpl.
  - by rewrite read_loop_omap.
  - done.
Qed.

(** C10.  A [ReadImmediate] that succeeds sends a reply whose [RequestId] is
    the empty string, returns the zero [Reply] to its caller, hands out no
    request id and leaves the store, counter included, as it was. *)
Theorem ReadImmediate_no_request_id m r :
  out_err (ReadImmediate m r) = None →
  out_reply (ReadImmediate m r) = mkReply "" "" [] ∧
  (∃ data, out_sent (ReadImmediate m r) =
     [mkSend (Request_ReplyChan r) (mkReply "" (Request_Node r) data)]) ∧
  op_ids m (OpReadImmediate r) = [] ∧
  out_store (ReadImmediate m r) = m.
Proof.
  unfold ReadImmediate. destruct (datastore m !! Request_Node r); simpl.
  - eauto.
  - done.
Qed.

Lemma ReadImmediate_no_request_id_witness :
  out_reply (ReadImmediate sample_store (mkRequest "n" ["m"; "zz"] 3%nat))
    = mkReply "" "" [] ∧
  (∃ data,
     out_sent (ReadImmediate sample_store (mkRequest "n" ["m"; "zz"] 3%nat)) =
     [mkSend 3%nat (mkReply "" "n" data)]) ∧
  op_ids sample_store (OpReadImmediate (mkRequest "n" ["m"; "zz"] 3%nat)) = [] ∧
  out_store (ReadImmediate sample_store (mkRequest "n" ["m"; "zz"] 3%nat))
    = sample_store.
Proof.
  apply (ReadImmediate_no_request_id sample_store
           (mkRequest "n" ["m"; "zz"] 3%nat)).
  vm_compute. reflexivity.
Defined.

(** ** Fan-out *)

Lemma elem_of_publish_loop hp key value timestamp ts s :
  s ∈ publish_loop hp key value timestamp ts ↔
  ∃ t tr, t ∈ ts ∧ hp !! t = Some tr ∧
    s = mkSend (Tracking_reply tr)
          (mkReply (Tracking_requestId tr) (Key_Node key)
             [mkData (Key_Measurement key) value timestamp]).
Proof.
  induction ts as [|t ts IH]; simpl.
  - rewrite elem_of_nil. split; [done|]. intros (t & tr & Hin & _).
    by apply elem_of_nil in Hin.
  - destruct (hp !! t) as [tr|] eqn:Et.
    + rewrite elem_of_cons, IH. split.
      * intros [->|(t' & tr' & Hin & Ht' & ->)].
        -- exists t, tr. by rewrite elem_of_cons; auto.
        -- exists t', tr'. by rewrite elem_of_cons; auto.
      * intros (t' & tr' & Hin & Ht' & ->).
        apply elem_of_cons in Hin. destruct Hin as [->|Hin].
        -- left. congruence.
        -- right. eauto.
    + rewrite IH. split.
      * intros (t' & tr' & Hin & Ht' & ->).
        exists t', tr'. by rewrite elem_of_cons; auto.
      * intros (t' & tr' & Hin & Ht' & ->).
        apply elem_of_cons in Hin. destruct Hin as [->|Hin]; [congruence|].
        eauto.
Qed.

Lemma publish_loop_app hp key value timestamp ts1 ts2 :
  publish_loop hp key value timestamp (ts1 ++ ts2) =
  publish_loop hp key value timestamp ts1
  ++ publish_loop hp key value timestamp ts2.
Proof.
  induction ts1 as [|t ts1 IH]; simpl; [done|].
  destruct (hp !! t); by rewrite IH.
Qed.

Lemma publish_loop_replicate hp key value timestamp n t tr :
  hp !! t = Some tr →
  publish_loop hp key value timestamp (replicate n t) =
  replicate n
    (mkSend (Tracking_reply tr)
       (mkReply (Tracking_requestId tr) (Key_Node key)
          [mkData (Key_Measurement key) value timestamp])).
Proof. intros Ht. induction n as [|n IH]; simpl; [done|]. by rewrite Ht, IH. Qed.

(** Cells appended to the heap do not change deliveries to old addresses. *)
Lemma publish_loop_grow hp extra key value timestamp ts :
  (∀ t, t ∈ ts → (t < length hp)%nat) →
  publish_loop (hp ++ extra) key value timestamp ts =
  publish_loop hp key value timestamp ts.
Proof.
  induction ts as [|t ts IH]; intros Hts; simpl; [done|].
  rewrite lookup_app_l by (apply Hts; set_solver).
  rewrite IH by (intros; apply Hts; set_solver). done.
Qed.

Lemma data_eta d :
  mkData (Data_Measurement d) (Data_Value d) (Data_Timestamp d) = d.
Proof. by destruct d. Qed.

(** A write of one datapoint serves the bucket of its key, in bucket order. *)
Lemma Write_single_sent m now n d :
  out_sent (Write m now (mkWrite n [d])) =
  publish_loop (heap m) (mkKey n (Data_Measurement d))
    (Data_Value (stamp (now 0%nat) d)) (Data_Timestamp (stamp (now 0%nat) d))
    (default [] (subscription m !! mkKey n (Data_Measurement d))).
Proof.
  rewrite Write_unfold. simpl. unfold publish.
  rewrite stamp_Measurement, prune_range_keeps, app_nil_r.
  - by destruct (subscription m !! _).
  - right. simpl. rewrite elem_of_keymap. unfold names. set_solver.
Qed.

Lemma Write_single_stored m now n d :
  datastore (out_store (Write m now (mkWrite n [d]))) !! n
    ≫= (λ node, node !! Data_Measurement d)
  = Some (stamp (now 0%nat) d).
Proof.
  rewrite Write_unfold. simpl. rewrite lookup_insert_eq. simpl.
  by rewrite stamp_Measurement, lookup_insert_eq.
Qed.

(** ** Cancel *)



(** ** Failed calls *)

Lemma op_err_fails m op : is_Some (op_err m op) ↔ op_fails m op.
Proof.
  destruct op as [r|r|clk w|rid| |node]; simpl.
  - destruct (datastore m !! Request_Node r) eqn:E.
    + rewrite Subscribe_found by eauto. simpl.
      split; [by intros [? ?]|done].
    + rewrite Subscribe_missing by done. simpl. split; eauto.
  - unfold ReadImmediate. destruct (datastore m !! Request_Node r); simpl.
    + split; [by intros [? ?]|done].
    + split; eauto.
  - rewrite Write_unfold. simpl. split; [by intros [? ?]|done].
  - unfold Cancel. destruct (tracking m !! rid); simpl.
    + split; [by intros [? ?]|done].
    + split; eauto.
  - split; [by intros [? ?]|done].
  - unfold SourceList. destruct (datastore m !! node); simpl.
    + split; [by intros [? ?]|done].
    + split; eauto.
Qed.

(** C6, as the code has it.  A call that returns an error (a [Subscribe],
    [ReadImmediate] or [SourceList] on a node the value table does not hold,
    a [Cancel] of an id the tracking table does not hold) sends nothing and
    leaves the value table, the subscription index, the tracking table and
    the tracking cells as they were.  The counter is left as it was by
    [ReadImmediate], [Cancel] and [SourceList]; a failed [Subscribe] has
    already drawn its request id and leaves the counter one higher. *)
Theorem failed_call_state m op :
  is_Some (op_err m op) →
  op_fails m op ∧
  datastore (step m op) = datastore m ∧
  tracking (step m op) = tracking m ∧
  subscription (step m op) = subscription m ∧
  heap (step m op) = heap m ∧
  op_sent m op = [] ∧
  nextId (step m op) =
    (if op is OpSubscribe _ then wrap64 (nextId m + 1) else nextId m) ∧
  (if op is OpSubscribe _ then True else step m op = m).
Proof.
  intros Hfail. apply op_err_fails in Hfail. split; [done|].
  destruct op as [r|r|clk w|rid| |node]; simpl in *; try done.
  - by rewrite Subscribe_missing.
  - unfold ReadImmediate. by rewrite Hfail.
  - unfold Cancel. by rewrite Hfail.
Qed.

Lemma failed_call_state_witness :
  op_fails sample_store (OpCancel "REQ0000009") ∧
  datastore (step sample_store (OpCancel "REQ0000009"))
    = datastore sample_store ∧
  tracking (step sample_store (OpCancel "REQ0000009"))
    = tracking sample_store ∧
  subscription (step sample_store (OpCancel "REQ0000009"))
    = subscription sample_store ∧
  heap (step sample_store (OpCancel "REQ0000009")) = heap sample_store ∧
  op_sent sample_store (OpCancel "REQ0000009") = [] ∧
  nextId (step sample_store (OpCancel "REQ0000009")) = nextId sample_store ∧
  step sample_store (OpCancel "REQ0000009") = sample_store.
Proof.
  apply (failed_call_state sample_store (OpCancel "REQ0000009")).
  vm_compute. eauto.
Defined.

(** C6 as stated does not hold: a [Subscribe] on a node that was never
    written fails, and the counter of the store has moved from 0 to 1. *)
Lemma failed_Subscribe_moves_counter :
  is_Some (out_err (Subscribe NewInMemoryStore (mkRequest "x" ["m"] 0%nat))) ∧
  nextId NewInMemoryStore = 0 ∧
  nextId (out_store (Subscribe NewInMemoryStore (mkRequest "x" ["m"] 0%nat)))
    = 1 ∧
  out_store (Subscribe NewInMemoryStore (mkRequest "x" ["m"] 0%nat))
    ≠ NewInMemoryStore.
Proof.
  split; [vm_compute; eauto|]. split; [done|]. split; [done|].
  intros H. apply (f_equal nextId) in H. vm_compute in H. discriminate.
Qed.

(** ** Write *)

Lemma elem_of_entries (node : gmap string Data) k :
  k ∈ (map_to_list node).*1 ↔ is_Some (node !! k).
Proof.
  rewrite list_elem_of_fmap. split.
  - intros ([k' d] & -> & Hin). apply elem_of_map_to_list in Hin. eauto.
  - intros [d Hd]. exists (k, d). split; [done|].
    by apply elem_of_map_to_list.
Qed.

Lemma entries_keyed (node : gmap string Data) :
  keyed node → ∀ k d, (k, d) ∈ map_to_list node → Data_Measurement d = k.
Proof. intros Hnode k d Hin. by apply Hnode, elem_of_map_to_list. Qed.

(** The index after a write to a node that has a bucket. *)
Lemma Write_index m now w node key :
  keyed node → datastore m !! Write_Node w = Some node →
  subscription (out_store (Write m now w)) !! key =
  if decide (Key_Node key = Write_Node w
             ∧ is_Some (node !! Key_Measurement key)
             ∧ Key_Measurement key ∉ names (Write_Datapoints w))
  then None else subscription m !! key.
Proof.
  intros Hkeyed Hnode. rewrite Write_unfold. simpl. rewrite Hnode. simpl.
  destruct (prune_range_spec (Write_Node w) (keymap (Write_Datapoints w))
    (map_to_list node) node (subscription m) (entries_keyed node Hkeyed))
    as [_ ->].
  pose proof (elem_of_entries node (Key_Measurement key)) as He.
  pose proof (elem_of_keymap (Key_Measurement key) (Write_Datapoints w)) as Hm.
  repeat case_decide; try done; exfalso; naive_solver.
Qed.

(** A measurement the batch does not name is not in the node's bucket after
    the write. *)
Lemma Write_dropped m now w node me :
  keyed node → datastore m !! Write_Node w = Some node →
  me ∉ names (Write_Datapoints w) →
  datastore (out_store (Write m now w)) !! Write_Node w
    ≫= (λ nd, nd !! me) = None.
Proof.
  intros Hkeyed Hnode Hme. rewrite Write_unfold. simpl.
  rewrite lookup_insert_eq, Hnode. simpl.
  rewrite write_loop_other by done.
  destruct (prune_range_spec (Write_Node w) (keymap (Write_Datapoints w))
    (map_to_list node) node (subscription m) (entries_keyed node Hkeyed))
    as [-> _].
  case_decide as Hd; [done|].
  destruct (node !! me) eqn:E; [|done].
  exfalso. apply Hd. rewrite elem_of_entries, elem_of_keymap. eauto.
Qed.

(** Under any iteration order over the bucket the pruning loop ends in the
    same bucket and the same index. *)
Lemma prune_range_order wnode datapoints (node : gmap string Data) subs entries :
  keyed node → entries ≡ₚ map_to_list node →
  prune_range wnode datapoints entries node subs =
  prune_range wnode datapoints (map_to_list node) node subs.
Proof.
  intros Hkeyed Hperm.
  assert (∀ k d, (k, d) ∈ entries → Data_Measurement d = k) as Hk.
  { intros k d Hin. rewrite Hperm in Hin. by apply entries_keyed in Hin. }
  destruct (prune_range_spec wnode datapoints entries node subs Hk)
    as [H1 H2].
  destruct (prune_range_spec wnode datapoints (map_to_list node) node subs
    (entries_keyed node Hkeyed)) as [H1' H2'].
  destruct (prune_range _ _ entries _ _) as [n1 s1].
  destruct (prune_range _ _ (map_to_list node) _ _) as [n2 s2].
  simpl in *. f_equal; apply map_eq.
  - intros k. rewrite H1, H1'.
    assert (k ∈ entries.*1 ↔ k ∈ (map_to_list node).*1) as He
      by (by rewrite Hperm).
    repeat case_decide; try done; exfalso; naive_solver.
  - intros key. rewrite H2, H2'.
    assert (Key_Measurement key ∈ entries.*1
            ↔ Key_Measurement key ∈ (map_to_list node).*1) as He
      by (by rewrite Hperm).
    repeat case_decide; try done; exfalso; naive_solver.
Qed.

(** C2.  In a reachable store, a write to a node that has a bucket removes
    every measurement stored for the node that the batch does not name: it
    is gone from the value table, so a read of it returns no datapoint, and
    its bucket is gone from the subscription index, so a following write of
    it sends nothing.  Every other bucket of the index — other nodes,
    measurements the batch names, measurements never stored for the node —
    is as it was. *)
Theorem Write_prunes m now w node :
  reachable m →
  datastore m !! Write_Node w = Some node →
  (∀ me, is_Some (node !! me) → me ∉ names (Write_Datapoints w) →
     datastore (out_store (Write m now w)) !! Write_Node w
       ≫= (λ nd, nd !! me) = None ∧
     subscription (out_store (Write m now w)) !! mkKey (Write_Node w) me
       = None ∧
     (∀ ch,
        out_sent (ReadImmediate (out_store (Write m now w))
                    (mkRequest (Write_Node w) [me] ch))
        = [mkSend ch (mkReply "" (Write_Node w) [])]) ∧
     (∀ now' d, Data_Measurement d = me →
        out_sent (Write (out_store (Write m now w)) now'
                    (mkWrite (Write_Node w) [d])) = [])) ∧
  (∀ key,
     ¬ (Key_Node key = Write_Node w
        ∧ is_Some (node !! Key_Measurement key)
        ∧ Key_Measurement key ∉ names (Write_Datapoints w)) →
     subscription (out_store (Write m now w)) !! key = subscription m !! key).
Proof.
  intros Hreach Hnode.
  destruct (reachable_inv m Hreach) as [Hkeyed _].
  specialize (Hkeyed _ _ Hnode).
  split.
  - intros me Hstored Hme.
    pose proof (Write_dropped m now w node me Hkeyed Hnode Hme) as Hdrop.
    assert (subscription (out_store (Write m now w))
              !! mkKey (Write_Node w) me = None) as Hidx.
    { rewrite (Write_index m now w node) by done.
      by rewrite decide_True. }
    split; [done|]. split; [done|]. split.
    + intros ch. unfold ReadImmediate. simpl.
      destruct (datastore (out_store (Write m now w)) !! Write_Node w)
        as [nd|] eqn:End.
      * simpl in Hdrop. simpl. by rewrite Hdrop.
      * exfalso. revert End. rewrite Write_unfold. simpl.
        by rewrite lookup_insert_eq.
    + intros now' d <-. by rewrite Write_single_sent, Hidx.
  - intros key Hkey. rewrite (Write_index m now w node) by done.
    by rewrite decide_False.
Qed.

Lemma Write_prunes_witness :
  datastore
    (out_store (Write sample_store clock (mkWrite "n" [mkData "m" "x" 9])))
    !! "n"%string ≫= (λ nd, nd !! "k"%string) = None ∧
  subscription
    (out_store (Write sample_store clock (mkWrite "n" [mkData "m" "x" 9])))
    !! mkKey "n" "k" = None ∧
  subscription
    (out_store (Write sample_store clock (mkWrite "n" [mkData "m" "x" 9])))
    !! mkKey "n" "m" = subscription sample_store !! mkKey "n" "m".
Proof.
  assert (reachable sample_store) as Hreach by (by exists sample_ops).
  destruct (Write_prunes sample_store clock (mkWrite "n" [mkData "m" "x" 9])
              {[ "m"%string := mkData "m" "v" 5;
                 "k"%string := mkData "k" "w" 1700000000 ]} Hreach)
    as [Hgone Hkept]; [vm_compute; reflexivity|].
  destruct (Hgone "k"%string) as (H1 & H2 & _); [compute_done..|].
  split; [exact H1|]. split; [exact H2|].
  apply Hkept. compute_done.
Defined.

(** C1, as the code has it.  After [Write(n, batch)], where [d] is the last
    datapoint of the batch for its measurement, a [ReadImmediate] of that
    measurement on [n] sends one reply holding exactly the stored datapoint:
    [d] itself when its timestamp is at least 1, and otherwise [d] with the
    clock reading taken while it was handled, which is not before the time
    [t0] at which the write began as long as the clock does not run
    backwards. *)
Theorem Write_then_ReadImmediate m now t0 w i d ch :
  Write_Datapoints w !! i = Some d →
  (∀ j d', (i < j)%nat → Write_Datapoints w !! j = Some d' →
           Data_Measurement d' ≠ Data_Measurement d) →
  (∀ j, t0 ≤ now j) →
  out_err (ReadImmediate (out_store (Write m now w))
             (mkRequest (Write_Node w) [Data_Measurement d] ch)) = None ∧
  out_sent (ReadImmediate (out_store (Write m now w))
              (mkRequest (Write_Node w) [Data_Measurement d] ch))
    = [mkSend ch (mkReply "" (Write_Node w) [stamp (now i) d])] ∧
  Data_Measurement (stamp (now i) d) = Data_Measurement d ∧
  Data_Value (stamp (now i) d) = Data_Value d ∧
  (1 ≤ Data_Timestamp d → stamp (now i) d = d) ∧
  (Data_Timestamp d < 1 →
   Data_Timestamp (stamp (now i) d) = now i ∧
   t0 ≤ Data_Timestamp (stamp (now i) d)).
Proof.
  intros Hi Hlast Hclock.
  assert (datastore (out_store (Write m now w)) !! Write_Node w
            ≫= (λ nd, nd !! Data_Measurement d)
          = Some (stamp (now i) d)) as Hstored.
  { rewrite Write_unfold. simpl. rewrite lookup_insert_eq. simpl.
    by rewrite (write_loop_last _ _ _ _ _ 0 _ i d Hi Hlast). }
  unfold ReadImmediate. simpl.
  destruct (datastore (out_store (Write m now w)) !! Write_Node w)
    as [nd|]; simpl in Hstored; [|done].
  simpl. rewrite Hstored. simpl.
  split; [done|]. split; [done|].
  split; [apply stamp_Measurement|].
  split; [unfold stamp; by case_match|].
  split; [apply stamp_given|].
  intros Hunset. rewrite stamp_unset by done. simpl. auto.
Qed.

Lemma Write_then_ReadImmediate_witness :
  out_sent
    (ReadImmediate
       (out_store
          (Write sample_store clock
             (mkWrite "n" [mkData "m" "1" 0; mkData "k" "2" 6])))
       (mkRequest "n" ["m"] 3%nat))
  = [mkSend 3%nat (mkReply "" "n" [mkData "m" "1" 1700000000])].
Proof.
  apply (Write_then_ReadImmediate sample_store clock 1700000000
           (mkWrite "n" [mkData "m" "1" 0; mkData "k" "2" 6])
           0%nat (mkData "m" "1" 0) 3%nat).
  - reflexivity.
  - intros [|[|[|j]]] d'; simpl; intros Hj Hd'; try lia; try done.
    by injection Hd' as <-.
  - intros j. unfold clock. lia.
Defined.

(** C1 as stated does not hold for every datapoint of the batch: when the
    batch names a measurement twice, the read returns the later datapoint,
    not the earlier one. *)
Lemma Write_duplicate_measurement :
  mkData "m" "1" 5
    ∈ Write_Datapoints (mkWrite "n" [mkData "m" "1" 5; mkData "m" "2" 6]) ∧
  out_sent
    (ReadImmediate
       (out_store
          (Write NewInMemoryStore clock
             (mkWrite "n" [mkData "m" "1" 5; mkData "m" "2" 6])))
       (mkRequest "n" ["m"] 0%nat))
  = [mkSend 0%nat (mkReply "" "n" [mkData "m" "2" 6])] ∧
  mkData "m" "1" 5 ∉ [mkData "m" "2" 6].
Proof.
  split; [apply list_elem_of_here|]. split; [by vm_compute|].
  compute_done.
Qed.

(** ** Subscribe, then Write *)

Lemma Subscribe_bucket m r key :
  is_Some (datastore m !! Request_Node r) →
  Key_Node key = Request_Node r →
  default [] (subscription (out_store (Subscribe m r)) !! key) =
  default [] (subscription m !! key)
  ++ replicate (occurrences (Key_Measurement key) (Request_Measurements r))
       (length (heap m)).
Proof.
  intros Hnode Hkey. rewrite Subscribe_found by done. simpl.
  rewrite subscribe_loop_index. case_decide as Hin.
  - done.
  - rewrite occurrences_absent by naive_solver. simpl.
    by rewrite app_nil_r.
Qed.

Lemma closed_bucket m key t :
  closed m → t ∈ default [] (subscription m !! key) →
  (t < length (heap m))%nat.
Proof.
  intros [Hclosed _] Ht.
  destruct (subscription m !! key) as [ts|] eqn:Ets; simpl in Ht.
  - by eapply Hclosed.
  - by apply elem_of_nil in Ht.
Qed.

(** ** Pruning and later deliveries *)

Lemma Write_index_shrinks m now w key :
  subscription (out_store (Write m now w)) !! key = None ∨
  subscription (out_store (Write m now w)) !! key = subscription m !! key.
Proof.
  rewrite Write_unfold. simpl.
  apply (prune_range_shrinks (Write_Node w) (keymap (Write_Datapoints w))).
Qed.

Lemma severed_step L key m op : severed L key m → severed L key (step m op).
Proof.
  intros [Hlen Hsev].
  destruct op as [r|r|clk w|rid| |node]; simpl; try done.
  - destruct (datastore m !! Request_Node r) eqn:E.
    + rewrite Subscribe_found by eauto. split; simpl.
      * rewrite length_app. lia.
      * intros ts t. rewrite subscribe_loop_index. case_decide.
        -- intros [= <-]. rewrite elem_of_app. intros [Hin|Hin].
           ++ destruct (subscription m !! key) eqn:Ek; simpl in Hin.
              ** by eapply Hsev.
              ** by apply elem_of_nil in Hin.
           ++ apply elem_of_replicate in Hin. lia.
        -- apply Hsev.
    + by rewrite Subscribe_missing.
  - unfold ReadImmediate. by case_match.
  - split.
    + by rewrite Write_unfold.
    + intros ts t Hts.
      destruct (Write_index_shrinks m clk w key) as [E|E];
        rewrite E in Hts; [done|]. by apply Hsev.
  - unfold Cancel. by case_match.
Qed.

Lemma severed_run L key ops : ∀ m, severed L key m → severed L key (run ops m).
Proof.
  induction ops as [|op ops IH]; intros m Hm; [done|].
  apply IH, severed_step, Hm.
Qed.

Lemma run_without_Subscribe key ops : ∀ m,
  (∀ r, OpSubscribe r ∉ ops) →
  subscription m !! key = None →
  subscription (run ops m) !! key = None.
Proof.
  induction ops as [|op ops IH]; intros m Hops Hm; [done|].
  apply IH; [intros r Hr; apply (Hops r); set_solver|].
  destruct op as [r|r|clk w|rid| |node]; simpl; try done.
  - exfalso. apply (Hops r). set_solver.
  - unfold ReadImmediate. by case_match.
  - destruct (Write_index_shrinks m clk w key) as [E|E]; by rewrite E.
  - unfold Cancel. by case_match.
Qed.

(** C9, as the code has it.  In a reachable store, a write to a node whose
    batch omits a measurement that is stored for the node deletes the whole
    bucket of that key.  The tracking table and the tracking cells are as
    before, so the trackings of the bucket are still registered with the key
    in their key lists.  From then on, whatever calls follow, the bucket of
    the key only ever holds trackings created after the pruning: a later
    write of the measurement stores the value and sends only to such
    trackings, never to the ones that were subscribed when the key was
    pruned, and sends nothing at all when no [Subscribe] came in between. *)
Theorem pruning_severs m now w node me :
  reachable m →
  datastore m !! Write_Node w = Some node →
  is_Some (node !! me) →
  me ∉ names (Write_Datapoints w) →
  subscription (out_store (Write m now w)) !! mkKey (Write_Node w) me = None ∧
  tracking (out_store (Write m now w)) = tracking m ∧
  heap (out_store (Write m now w)) = heap m ∧
  (∀ t, t ∈ default [] (subscription m !! mkKey (Write_Node w) me) →
        (t < length (heap m))%nat) ∧
  (∀ ops now' d, Data_Measurement d = me →
     datastore
       (out_store
          (Write (run ops (out_store (Write m now w))) now'
             (mkWrite (Write_Node w) [d])))
       !! Write_Node w ≫= (λ nd, nd !! me)
     = Some (stamp (now' 0%nat) d) ∧
     (∀ t, t ∈ default []
                 (subscription (run ops (out_store (Write m now w)))
                    !! mkKey (Write_Node w) me) →
           (length (heap m) ≤ t)%nat) ∧
     (∀ s, s ∈ out_sent
                 (Write (run ops (out_store (Write m now w))) now'
                    (mkWrite (Write_Node w) [d])) →
           ∃ t tr,
             (length (heap m) ≤ t)%nat ∧
             heap (run ops (out_store (Write m now w))) !! t = Some tr ∧
             s = mkSend (Tracking_reply tr)
                   (mkReply (Tracking_requestId tr) (Write_Node w)
                      [stamp (now' 0%nat) d])) ∧
     ((∀ r, OpSubscribe r ∉ ops) →
      out_sent
        (Write (run ops (out_store (Write m now w))) now'
           (mkWrite (Write_Node w) [d])) = [])).
Proof.
  intros Hreach Hnode Hstored Hme.
  destruct (reachable_inv m Hreach) as [Hkeyed Hclosed].
  specialize (Hkeyed _ _ Hnode).
  assert (subscription (out_store (Write m now w))
            !! mkKey (Write_Node w) me = None) as Hidx.
  { rewrite (Write_index m now w node) by done. by rewrite decide_True. }
  split; [done|].
  split; [by rewrite Write_unfold|].
  split; [by rewrite Write_unfold|].
  split; [intros t; by apply closed_bucket|].
  intros ops now' d <-.
  assert (severed (length (heap m)) (mkKey (Write_Node w) (Data_Measurement d))
            (run ops (out_store (Write m now w)))) as [_ Hsev].
  { apply severed_run. split.
    - by rewrite Write_unfold.
    - intros ts t. by rewrite Hidx. }
  assert (∀ t, t ∈ default []
                 (subscription (run ops (out_store (Write m now w)))
                    !! mkKey (Write_Node w) (Data_Measurement d)) →
               (length (heap m) ≤ t)%nat) as Hlate.
  { intros t Ht.
    destruct (subscription (run ops (out_store (Write m now w)))
                !! mkKey (Write_Node w) (Data_Measurement d))
      as [ts|] eqn:Ets; simpl in Ht.
    - by eapply Hsev.
    - by apply elem_of_nil in Ht. }
  split; [apply Write_single_stored|]. split; [done|]. split.
  - intros s. rewrite Write_single_sent, elem_of_publish_loop.
    intros (t & tr & Hin & Htr & ->). exists t, tr.
    split; [by apply Hlate|]. split; [done|]. simpl.
    rewrite <- (stamp_Measurement (now' 0%nat) d) at 1.
    by rewrite data_eta.
  - intros Hops. rewrite Write_single_sent.
    by rewrite (run_without_Subscribe _ ops _ Hops Hidx).
Qed.

Lemma pruning_severs_witness :
  subscription
    (out_store (Write sample_store clock (mkWrite "n" [mkData "k" "x" 9])))
    !! mkKey "n" "m" = None ∧
  out_sent
    (Write
       (run [OpCancel "REQ0000001"]
          (out_store
             (Write sample_store clock (mkWrite "n" [mkData "k" "x" 9]))))
       clock (mkWrite "n" [mkData "m" "y" 3])) = [].
Proof.
  assert (reachable sample_store) as Hreach by (by exists sample_ops).
  destruct (pruning_severs sample_store clock (mkWrite "n" [mkData "k" "x" 9])
              {[ "m"%string := mkData "m" "v" 5;
                 "k"%string := mkData "k" "w" 1700000000 ]} "m" Hreach)
    as (Hgone & _ & _ & _ & Hlater); [by vm_compute|compute_done..|].
  split; [exact Hgone|].
  destruct (Hlater [OpCancel "REQ0000001"] clock (mkData "m" "y" 3) eq_refl)
    as (_ & _ & _ & Hnone).
  apply Hnone. intros r Hr. apply list_elem_of_singleton in Hr. discriminate.
Defined.

(** C9 as stated does not hold for every key: the bucket of a key whose
    measurement is not stored for the node survives a write that omits the
    measurement, and a later write of the measurement is delivered. *)
Lemma unstored_key_keeps_bucket :
  (("b" : string) ∉ names [mkData "m" "x" 9]) ∧
  subscription
    (out_store (Write pending_store clock (mkWrite "n" [mkData "m" "x" 9])))
    !! mkKey "n" "b" = Some [0%nat] ∧
  out_sent
    (Write
       (out_store (Write pending_store clock (mkWrite "n" [mkData "m" "x" 9])))
       clock (mkWrite "n" [mkData "b" "y" 3]))
  = [mkSend 7%nat (mkReply "REQ0000002" "n" [mkData "b" "y" 3])].
Proof. split; [compute_done|]. split; by vm_compute. Qed.

(** ** Request ids *)

Lemma wrap64_small z : - 2 ^ 63 ≤ z < 2 ^ 63 → wrap64 z = z.
Proof. intros Hz. unfold wrap64. rewrite Z.mod_small; lia. Qed.

Lemma id_of_inj a b : id_of a = id_of b → a = b.
Proof. unfold id_of. simpl. intros [= H]. by apply fmt_07d_inj. Qed.

Lemma step_nextId m op :
  nextId (step m op) = if mints op then wrap64 (nextId m + 1) else nextId m.
Proof.
  destruct op as [r|r|clk w|rid| |node]; simpl; try done.
  - unfold Subscribe. simpl. destruct (datastore m !! Request_Node r); [|done].
    by destruct (subscribe_loop _ _ _ _ _).
  - unfold ReadImmediate. by case_match.
  - by rewrite Write_unfold.
  - unfold Cancel. by case_match.
Qed.

Lemma op_ids_drawn m op :
  op_ids m op = if mints op then [id_of (wrap64 (nextId m + 1))] else [].
Proof.
  destruct op as [r|r|clk w|rid| |node]; simpl; try done.
  - unfold Subscribe. simpl. destruct (datastore m !! Request_Node r); [|done].
    by destruct (subscribe_loop _ _ _ _ _).
  - by rewrite Write_unfold.
Qed.

(** While the counter stays below [2 ^ 63], a run draws the ids of the
    consecutive counter values. *)
Lemma run_issued ops : ∀ m,
  0 ≤ nextId m →
  nextId m + Z.of_nat (minted ops) < 2 ^ 63 →
  nextId (run ops m) = nextId m + Z.of_nat (minted ops) ∧
  issued_ids ops m =
    (λ i, id_of (nextId m + Z.of_nat i)) <$> seq 1 (minted ops).
Proof.
  induction ops as [|op ops IH]; intros m H0 Hmax; simpl.
  - split; [lia|done].
  - simpl in Hmax. rewrite op_ids_drawn.
    assert (nextId (step m op) =
            nextId m + Z.of_nat (if mints op then 1 else 0)) as Hstep.
    { rewrite step_nextId. destruct (mints op); [|simpl; lia].
      rewrite wrap64_small; lia. }
    destruct (IH (step m op)) as [IH1 IH2]; [lia|lia|].
    unfold run in *. simpl. rewrite IH1, IH2, Hstep. split; [lia|].
    destruct (mints op) eqn:Emint; simpl.
    + rewrite wrap64_small by lia. f_equal.
      rewrite <- (fmap_S_seq 1), <- list_fmap_compose.
      apply list_fmap_ext. intros _ i _. simpl. f_equal. lia.
    + apply list_fmap_ext. intros _ i _. simpl. f_equal. lia.
Qed.

Lemma reachable_drawn n : 0 ≤ n < 2 ^ 63 → reachable (drawn n).
Proof.
  intros [H0 Hmax]. revert Hmax. pattern n. apply natlike_ind; [| |done].
  - intros _. by exists [].
  - clear n H0. intros n H0 IH Hmax.
    destruct IH as [ops Hops]; [lia|].
    exists (ops ++ [OpSubscribe (mkRequest "" [] 0%nat)]).
    rewrite run_snoc, <- Hops. simpl. rewrite Subscribe_missing by done.
    unfold drawn, set_nextId. simpl. f_equal.
    rewrite wrap64_small; lia.
Qed.

Lemma id_of_nat i :
  id_of (Z.of_nat i) = "REQ" +:+ zero_pad 7 (decimal (N.of_nat i)).
Proof.
  unfold id_of, fmt_07d. rewrite (proj2 (Z.ltb_ge _ _)) by lia.
  by rewrite <- nat_N_Z, N2Z.id.
Qed.

(** C8, as the code has it.  In a run from the fresh store that draws fewer
    than [2 ^ 63] request ids, the ids handed out by [Subscribe] and [Write]
    are, in the order of the calls, ["REQ"] followed by the decimal numerals
    of 1, 2, 3, ... padded with zeros on the left to at least seven digits;
    the counter goes up by one with each id; the ids are pairwise different;
    and the first 9999999 of them have the same width of ten characters. *)
Theorem request_ids_consecutive ops :
  Z.of_nat (minted ops) < 2 ^ 63 →
  issued_ids ops NewInMemoryStore =
    (λ i, "REQ" +:+ zero_pad 7 (decimal (N.of_nat i))) <$> seq 1 (minted ops) ∧
  nextId (run ops NewInMemoryStore) = Z.of_nat (minted ops) ∧
  NoDup (issued_ids ops NewInMemoryStore) ∧
  (∀ i id, issued_ids ops NewInMemoryStore !! i = Some id →
           Z.of_nat i < 9999999 → String.length id = 10%nat).
Proof.
  intros Hmax.
  destruct (run_issued ops NewInMemoryStore) as [Hnext Hids];
    [done|simpl; lia|]. simpl in Hnext, Hids.
  assert (issued_ids ops NewInMemoryStore =
          (λ i, id_of (Z.of_nat i)) <$> seq 1 (minted ops)) as Hids'.
  { rewrite Hids. apply list_fmap_ext. intros _ i _. simpl. f_equal. }
  clear Hids. split; [|split; [done|split]].
  - rewrite Hids'. apply list_fmap_ext. intros _ i _. apply id_of_nat.
  - rewrite Hids'. apply NoDup_fmap_2_strong; [|apply NoDup_seq].
    intros a b _ _ Hab. apply id_of_inj in Hab. lia.
  - intros i id. rewrite Hids', list_lookup_fmap.
    destruct (seq 1 (minted ops) !! i) as [k|] eqn:Ek; [|done].
    apply lookup_seq in Ek. destruct Ek as [-> _]. simpl.
    intros [= <-] Hi. unfold id_of.
    change (String.length ("REQ" +:+ ?x)) with (3 + String.length x)%nat.
    rewrite length_fmt_07d; lia.
Qed.

Lemma request_ids_consecutive_witness :
  issued_ids sample_ops NewInMemoryStore = ["REQ0000001"; "REQ0000002"]%string.
Proof.
  destruct (request_ids_consecutive sample_ops) as [Hids _]; [by vm_compute|].
  etrans; [exact Hids|]. by vm_compute.
Defined.

(** C8 as stated does not hold for every id.  After 9999999 ids the next one
    has eight digits, so the width is not fixed; and at the top of the
    [int64] range the counter wraps, so the next counter value is below the
    earlier ones. *)
Lemma request_id_outgrows_width :
  reachable (drawn 9999999) ∧
  (requestId (drawn 9999999)).1 = "REQ10000000"%string ∧
  String.length (requestId (drawn 9999999)).1 = 11%nat ∧
  String.length (requestId NewInMemoryStore).1 = 10%nat ∧
  reachable (drawn (2 ^ 63 - 1)) ∧
  (requestId (drawn (2 ^ 63 - 1))).1 = "REQ-9223372036854775808"%string ∧
  nextId (requestId (drawn (2 ^ 63 - 1))).2 < nextId (drawn (2 ^ 63 - 1)).
Proof.
  split; [apply reachable_drawn; lia|].
  split; [by vm_compute|]. split; [by vm_compute|]. split; [by vm_compute|].
  split; [apply reachable_drawn; lia|].
  split; by vm_compute.
Qed.

(** ** Subscribe *)

Lemma step_datastore_nodes m op node :
  is_Some (datastore (step m op) !! node) ↔
  is_Some (datastore m !! node)
  ∨ ∃ clk w, op = OpWrite clk w ∧ Write_Node w = node.
Proof.
  destruct op as [r|r|clk w|rid| |node']; simpl.
  - destruct (datastore m !! Request_Node r) eqn:E.
    + rewrite Subscribe_found by eauto. naive_solver.
    + rewrite Subscribe_missing by done. naive_solver.
  - unfold ReadImmediate. case_match; naive_solver.
  - rewrite Write_unfold. simpl. rewrite lookup_insert. case_decide.
    + split; [|eauto]. intros _. right. eauto.
    + naive_solver.
  - unfold Cancel. case_match; naive_solver.
  - naive_solver.
  - naive_solver.
Qed.

(** The value table holds exactly the nodes that have been written to. *)
Lemma run_written ops node :
  is_Some (datastore (run ops NewInMemoryStore) !! node) ↔ written node ops.
Proof.
  unfold written. induction ops as [|op ops IH] using rev_ind.
  - simpl. rewrite lookup_empty. split; [by intros [? ?]|].
    intros (clk & w & Hin & _). by apply elem_of_nil in Hin.
  - rewrite run_snoc, step_datastore_nodes, IH. split.
    + intros [(clk & w & Hin & Hw)|(clk & w & -> & Hw)];
        exists clk, w; (split; [|done]); set_solver.
    + intros (clk & w & Hin & Hw).
      apply elem_of_app in Hin. destruct Hin as [Hin|Hin].
      * left. eauto.
      * right. apply list_elem_of_singleton in Hin. eauto.
Qed.

(** C4.  In the store that a run from the fresh store has produced:
    [Subscribe] on a node that no [Write] of the run named returns the
    node-not-found error, sends nothing, and leaves the value table, the
    subscription index, the tracking table and the tracking cells as they
    were.  On a node that was written, whether or not the requested
    measurements are stored for it, [Subscribe] succeeds: it draws the next
    request id (different from every id handed out before, as long as the
    counter has not reached the top of its range), allocates one tracking
    cell holding that id, the caller's channel and the requested keys in
    request order, appends the address of that one cell to the bucket of
    every requested key and changes no other bucket, files the address in
    the tracking table under the id, and returns the id. *)
Theorem Subscribe_registers ops r :
  (¬ written (Request_Node r) ops →
   out_err (Subscribe (run ops NewInMemoryStore) r)
     = Some "Could not fetch requested data, node does not exists"%string ∧
   out_sent (Subscribe (run ops NewInMemoryStore) r) = [] ∧
   datastore (out_store (Subscribe (run ops NewInMemoryStore) r))
     = datastore (run ops NewInMemoryStore) ∧
   subscription (out_store (Subscribe (run ops NewInMemoryStore) r))
     = subscription (run ops NewInMemoryStore) ∧
   tracking (out_store (Subscribe (run ops NewInMemoryStore) r))
     = tracking (run ops NewInMemoryStore) ∧
   heap (out_store (Subscribe (run ops NewInMemoryStore) r))
     = heap (run ops NewInMemoryStore)) ∧
  (written (Request_Node r) ops →
   out_err (Subscribe (run ops NewInMemoryStore) r) = None ∧
   out_sent (Subscribe (run ops NewInMemoryStore) r) = [] ∧
   out_reply (Subscribe (run ops NewInMemoryStore) r)
     = mkReply (requestId (run ops NewInMemoryStore)).1 "" [] ∧
   (Z.of_nat (minted ops) < 2 ^ 63 - 1 →
    (requestId (run ops NewInMemoryStore)).1
      = id_of (Z.of_nat (minted ops) + 1) ∧
    (requestId (run ops NewInMemoryStore)).1
      ∉ issued_ids ops NewInMemoryStore) ∧
   datastore (out_store (Subscribe (run ops NewInMemoryStore) r))
     = datastore (run ops NewInMemoryStore) ∧
   heap (out_store (Subscribe (run ops NewInMemoryStore) r))
     = heap (run ops NewInMemoryStore)
       ++ [mkTracking (requestId (run ops NewInMemoryStore)).1
             (Request_ReplyChan r)
             (mkKey (Request_Node r) <$> Request_Measurements r)] ∧
   (∀ key,
      subscription (out_store (Subscribe (run ops NewInMemoryStore) r)) !! key
      = if decide (Key_Node key = Request_Node r
                   ∧ Key_Measurement key ∈ Request_Measurements r)
        then Some (default [] (subscription (run ops NewInMemoryStore) !! key)
                   ++ replicate
                        (occurrences (Key_Measurement key)
                           (Request_Measurements r))
                        (length (heap (run ops NewInMemoryStore))))
        else subscription (run ops NewInMemoryStore) !! key) ∧
   tracking (out_store (Subscribe (run ops NewInMemoryStore) r))
     = <[(requestId (run ops NewInMemoryStore)).1 :=
           length (heap (run ops NewInMemoryStore))]>
         (tracking (run ops NewInMemoryStore))).
Proof.
  split.
  - intros Hnot.
    assert (datastore (run ops NewInMemoryStore) !! Request_Node r = None)
      as Hnone.
    { apply eq_None_not_Some. by rewrite run_written. }
    by rewrite Subscribe_missing.
  - intros Hw. apply run_written in Hw.
    rewrite Subscribe_found by done. simpl.
    repeat split; try done.
    + destruct (run_issued ops NewInMemoryStore) as [Hnext _];
        [done|simpl; lia|]. simpl in Hnext.
      rewrite Hnext, wrap64_small by lia. done.
    + destruct (run_issued ops NewInMemoryStore) as [Hnext Hids];
        [done|simpl; lia|]. simpl in Hnext, Hids.
      rewrite Hnext, Hids, wrap64_small by lia.
      intros Hin. apply list_elem_of_fmap in Hin.
      destruct Hin as (i & Hi & Hin).
      apply elem_of_seq in Hin.
      apply (id_of_inj (Z.of_nat (minted ops) + 1)) in Hi. lia.
    + intros key. apply subscribe_loop_index.
Qed.

Lemma Subscribe_registers_witness :
  out_err (Subscribe (run written_ops NewInMemoryStore)
             (mkRequest "n" ["zz"] 4%nat)) = None ∧
  heap (out_store (Subscribe (run written_ops NewInMemoryStore)
                     (mkRequest "n" ["zz"] 4%nat)))
  = [mkTracking "REQ0000002" 4%nat [mkKey "n" "zz"]].
Proof.
  destruct (Subscribe_registers written_ops (mkRequest "n" ["zz"] 4%nat))
    as [_ Hok].
  destruct Hok as (Herr & _ & _ & _ & _ & Hheap & _).
  - exists clock, (mkWrite "n" [mkData "m" "v" 5]).
    split; [apply list_elem_of_here|done].
  - split; [exact Herr|]. etrans; [exact Hheap|]. by vm_compute.
Defined.

(** ** NodeList and SourceList *)

Lemma elem_of_map_keys {A} (m : gmap string A) k :
  k ∈ (map_to_list m).*1 ↔ is_Some (m !! k).
Proof.
  rewrite list_elem_of_fmap. split.
  - intros ([k' x] & -> & Hin). apply elem_of_map_to_list in Hin. eauto.
  - intros [x Hx]. exists (k, x). split; [done|].
    by apply elem_of_map_to_list.
Qed.

Lemma run_keeps_nodes ops : ∀ m n,
  is_Some (datastore m !! n) → is_Some (datastore (run ops m) !! n).
Proof.
  induction ops as [|op ops IH]; intros m n Hn; [done|].
  apply IH, step_datastore_nodes. by left.
Qed.

(** [NodeList] after a run from the fresh store lists each node once, and
    lists exactly the nodes that some [Write] of the run named. *)
Theorem NodeList_written ops :
  NoDup (NodeList (run ops NewInMemoryStore)) ∧
  ∀ n, n ∈ NodeList (run ops NewInMemoryStore) ↔ written n ops.
Proof.
  unfold NodeList. split.
  - apply NoDup_fst_map_to_list.
  - intros n. by rewrite elem_of_map_keys, run_written.
Qed.

(** [SourceList] fails, with the node's name in the message, exactly on the
    nodes that [NodeList] does not list; on the others it lists each stored
    measurement name once and no other name. *)
Theorem SourceList_names m node :
  ((SourceList m node).1 = None ↔ node ∈ NodeList m) ∧
  match datastore m !! node with
  | None => SourceList m node = (Some ("Could not find node " +:+ node), [])
  | Some keystore =>
      NoDup (SourceList m node).2 ∧
      ∀ k, k ∈ (SourceList m node).2 ↔ is_Some (keystore !! k)
  end.
Proof.
  unfold SourceList, NodeList. rewrite elem_of_map_keys.
  destruct (datastore m !! node) as [keystore|]; simpl.
  - split; [split; eauto|]. split.
    + apply NoDup_fst_map_to_list.
    + intros k. apply elem_of_map_keys.
  - split; [|done]. split; [done|by intros [? ?]].
Qed.

Lemma write_loop_named wnode now subs hp dps : ∀ i0 node k,
  k ∈ names dps →
  is_Some ((write_loop wnode now subs hp i0 dps node).1 !! k).
Proof.
  induction dps as [|d dps IH]; intros i0 node k Hk.
  - by apply elem_of_nil in Hk.
  - simpl.
    destruct (write_loop _ _ _ _ _ dps _) as [node' outs] eqn:E. simpl.
    replace node' with (node', outs).1 by done. rewrite <- E. clear E.
    destruct (decide (k ∈ names dps)) as [Hin|Hout]; [by apply IH|].
    rewrite write_loop_other by done.
    unfold names in Hk. rewrite fmap_cons, elem_of_cons in Hk.
    destruct Hk as [->|Hk]; [|done].
    rewrite stamp_Measurement, lookup_insert_eq. eauto.
Qed.

Lemma Write_bucket m now w :
  ∃ bucket,
    datastore (out_store (Write m now w)) !! Write_Node w = Some bucket ∧
    (∀ k, k ∈ names (Write_Datapoints w) → is_Some (bucket !! k)) ∧
    (keyed (default ∅ (datastore m !! Write_Node w)) →
     ∀ k, k ∉ names (Write_Datapoints w) → bucket !! k = None).
Proof.
  rewrite Write_unfold. simpl. rewrite lookup_insert_eq.
  eexists. split; [done|]. split.
  - intros k Hk. by apply write_loop_named.
  - intros Hkeyed k Hk. rewrite write_loop_other by done.
    destruct (prune_range_spec (Write_Node w) (keymap (Write_Datapoints w))
      (map_to_list (default ∅ (datastore m !! Write_Node w)))
      (default ∅ (datastore m !! Write_Node w)) (subscription m)
      (entries_keyed _ Hkeyed)) as [-> _].
    case_decide as Hd; [done|].
    destruct (default ∅ (datastore m !! Write_Node w) !! k) eqn:E; [|done].
    exfalso. apply Hd. rewrite elem_of_entries, elem_of_keymap. eauto.
Qed.

Lemma reachable_keyed m n :
  reachable m → keyed (default ∅ (datastore m !! n)).
Proof.
  intros Hreach. destruct (reachable_inv m Hreach) as [Hkeyed _].
  destruct (datastore m !! n) eqn:E; simpl.
  - by eapply Hkeyed.
  - intros k d. by rewrite lookup_empty.
Qed.

(** A write replaces the measurement set of its node: in a reachable store,
    right after [Write(n, batch)], [SourceList(n)] succeeds and lists exactly
    the measurement names of the batch, whatever was stored for [n] before.
    After a write with an empty batch the node is there with no
    measurement. *)
Theorem Write_then_SourceList m now w :
  reachable m →
  (SourceList (out_store (Write m now w)) (Write_Node w)).1 = None ∧
  NoDup (SourceList (out_store (Write m now w)) (Write_Node w)).2 ∧
  (∀ k, k ∈ (SourceList (out_store (Write m now w)) (Write_Node w)).2
        ↔ k ∈ names (Write_Datapoints w)) ∧
  (Write_Datapoints w = [] →
   SourceList (out_store (Write m now w)) (Write_Node w) = (None, [])).
Proof.
  intros Hreach.
  destruct (Write_bucket m now w) as (bucket & Hb & Hin & Hout).
  specialize (Hout (reachable_keyed m (Write_Node w) Hreach)).
  assert (∀ k, k ∈ (map_to_list bucket).*1 ↔ k ∈ names (Write_Datapoints w))
    as Hnames.
  { intros k. rewrite elem_of_map_keys. split; [|apply Hin].
    intros Hk. destruct (decide (k ∈ names (Write_Datapoints w))); [done|].
    rewrite Hout in Hk by done. by destruct Hk. }
  unfold SourceList. rewrite Hb. simpl.
  split; [done|]. split; [apply NoDup_fst_map_to_list|]. split; [done|].
  intros Hempty. f_equal. apply elem_of_nil_inv.
  intros k. rewrite Hnames, Hempty. apply not_elem_of_nil.
Qed.

Lemma Write_then_SourceList_witness :
  ("z" : string)
  ∈ (SourceList
       (out_store (Write sample_store clock (mkWrite "n" [mkData "z" "1" 4])))
       "n").2.
Proof.
  assert (reachable sample_store) as Hreach by (by exists sample_ops).
  destruct (Write_then_SourceList sample_store clock
              (mkWrite "n" [mkData "z" "1" 4]) Hreach) as (_ & _ & H & _).
  apply H. apply list_elem_of_here.
Defined.

(** [Write] never fails, and a node that has been written stays in the value
    table through every later run of calls, also when later writes leave it
    without measurements: [Subscribe], [ReadImmediate] and [SourceList] on
    it do not fail again. *)
Theorem written_node_stays m now w ops r :
  Request_Node r = Write_Node w →
  out_err (Write m now w) = None ∧
  is_Some (datastore (run ops (out_store (Write m now w))) !! Write_Node w) ∧
  out_err (Subscribe (run ops (out_store (Write m now w))) r) = None ∧
  out_err (ReadImmediate (run ops (out_store (Write m now w))) r) = None ∧
  (SourceList (run ops (out_store (Write m now w))) (Write_Node w)).1 = None.
Proof.
  intros Hr.
  assert (is_Some (datastore (run ops (out_store (Write m now w)))
                     !! Write_Node w)) as Hnode.
  { apply run_keeps_nodes. rewrite Write_unfold. simpl.
    rewrite lookup_insert_eq. eauto. }
  split; [by rewrite Write_unfold|]. split; [done|].
  split; [rewrite Subscribe_found; [done|by rewrite Hr]|].
  destruct Hnode as [bucket Hb].
  unfold ReadImmediate, SourceList. by rewrite Hr, Hb.
Qed.

Lemma written_node_stays_witness :
  out_err
    (Subscribe
       (run [OpWrite clock (mkWrite "n" []); OpCancel "REQ0000002"]
          (out_store (Write NewInMemoryStore clock
                        (mkWrite "n" [mkData "m" "v" 5]))))
       (mkRequest "n" ["m"] 1%nat)) = None.
Proof.
  apply (written_node_stays NewInMemoryStore clock
           (mkWrite "n" [mkData "m" "v" 5])
           [OpWrite clock (mkWrite "n" []); OpCancel "REQ0000002"]
           (mkRequest "n" ["m"] 1%nat)).
  reflexivity.
Defined.

(** What a write leaves alone: the tracking table and the tracking cells,
    the buckets of every other node in the value table, and every index
    bucket whose key belongs to another node or names a measurement of the
    batch. *)
Theorem Write_frame m now w :
  tracking (out_store (Write m now w)) = tracking m ∧
  heap (out_store (Write m now w)) = heap m ∧
  (∀ n, n ≠ Write_Node w →
        datastore (out_store (Write m now w)) !! n = datastore m !! n) ∧
  (∀ key, Key_Node key ≠ Write_Node w
          ∨ Key_Measurement key ∈ names (Write_Datapoints w) →
          subscription (out_store (Write m now w)) !! key
          = subscription m !! key).
Proof.
  rewrite Write_unfold. simpl. split; [done|]. split; [done|]. split.
  - intros n Hn. by rewrite lookup_insert_ne.
  - intros key Hkey. apply prune_range_keeps.
    rewrite elem_of_keymap. done.
Qed.

(** ** Deliveries of a write *)

Lemma write_loop_sent wnode now subs hp dps : ∀ i0 node,
  (write_loop wnode now subs hp i0 dps node).2 =
  concat
    (imap (λ i d,
       publish subs hp (mkKey wnode (Data_Measurement d))
         (Data_Value (stamp (now (i0 + i)%nat) d))
         (Data_Timestamp (stamp (now (i0 + i)%nat) d)))
       dps).
Proof.
  induction dps as [|d dps IH]; intros i0 node; [done|].
  simpl. destruct (write_loop _ _ _ _ _ dps _) as [node' outs] eqn:E. simpl.
  replace outs with (node', outs).2 by done. rewrite <- E, IH. clear E.
  rewrite stamp_Measurement, Nat.add_0_r. f_equal. f_equal.
  apply imap_ext. intros i x _. simpl. by rewrite Nat.add_succ_r.
Qed.

Lemma publish_loop_cells hp key value timestamp ts :
  publish_loop hp key value timestamp ts =
  (λ tr, mkSend (Tracking_reply tr)
           (mkReply (Tracking_requestId tr) (Key_Node key)
              [mkData (Key_Measurement key) value timestamp]))
  <$> omap (λ t, hp !! t) ts.
Proof.
  induction ts as [|t ts IH]; simpl; [done|].
  destruct (hp !! t); simpl; by rewrite IH.
Qed.

Lemma omap_allocated (hp : list Tracking) ts :
  (∀ t, t ∈ ts → (t < length hp)%nat) →
  length (omap (λ t, hp !! t) ts) = length ts.
Proof.
  induction ts as [|t ts IH]; intros Hts; simpl; [done|].
  destruct (lookup_lt_is_Some_2 hp t) as [tr ->]; [apply Hts; set_solver|].
  simpl. f_equal. apply IH. intros; apply Hts; set_solver.
Qed.

Lemma Write_sent_concat m now w :
  out_sent (Write m now w) =
  concat
    (imap (λ i d,
       publish (subscription m) (heap m)
         (mkKey (Write_Node w) (Data_Measurement d))
         (Data_Value (stamp (now i) d)) (Data_Timestamp (stamp (now i) d)))
       (Write_Datapoints w)).
Proof.
  rewrite Write_unfold. simpl. rewrite write_loop_sent. f_equal.
  apply imap_ext. intros i d Hd. simpl. unfold publish.
  rewrite prune_range_keeps; [done|]. right. simpl.
  rewrite elem_of_keymap. unfold names.
  apply list_elem_of_fmap. exists d. split; [done|].
  by eapply list_elem_of_lookup_2.
Qed.

(** Where a send of a write comes from. *)
Lemma Write_sent_elem m now w s :
  s ∈ out_sent (Write m now w) →
  ∃ i d ts t tr,
    Write_Datapoints w !! i = Some d ∧
    subscription m !! mkKey (Write_Node w) (Data_Measurement d) = Some ts ∧
    t ∈ ts ∧ heap m !! t = Some tr ∧
    s = mkSend (Tracking_reply tr)
          (mkReply (Tracking_requestId tr) (Write_Node w) [stamp (now i) d]).
Proof.
  rewrite Write_sent_concat.
  generalize (Write_Datapoints w) now. clear now.
  intros dps. induction dps as [|d dps IH]; intros now Hs.
  - by apply elem_of_nil in Hs.
  - rewrite imap_cons in Hs. simpl in Hs. apply elem_of_app in Hs.
    destruct Hs as [Hs|Hs].
    + unfold publish in Hs.
      destruct (subscription m !! _) as [ts|] eqn:Ets;
        [|by apply elem_of_nil in Hs].
      apply elem_of_publish_loop in Hs.
      destruct Hs as (t & tr & Hin & Htr & ->).
      exists 0%nat, d, ts, t, tr. repeat split; try done. simpl.
      rewrite <- (stamp_Measurement (now 0%nat) d) at 1.
      by rewrite data_eta.
    + destruct (IH (λ i, now (S i)) Hs)
        as (i & d' & ts & t & tr & Hi & Hts & Hin & Htr & ->).
      by exists (S i), d', ts, t, tr.
Qed.

(** The sends of a write are fixed by the index and the cells as they were
    before the write: datapoint by datapoint in batch order, each stamped
    datapoint goes to the bucket of its key.  The pruning that the same
    write does takes no delivery of this write away.  Every reply names the
    written node and holds exactly one datapoint, a stamped datapoint of the
    batch. *)
Theorem Write_deliveries m now w :
  out_sent (Write m now w) =
  concat
    (imap (λ i d,
       publish (subscription m) (heap m)
         (mkKey (Write_Node w) (Data_Measurement d))
         (Data_Value (stamp (now i) d)) (Data_Timestamp (stamp (now i) d)))
       (Write_Datapoints w)) ∧
  (Write_Datapoints w = [] → out_sent (Write m now w) = []) ∧
  ∀ s, s ∈ out_sent (Write m now w) →
       Reply_Node (Send_reply s) = Write_Node w ∧
       ∃ i d, Write_Datapoints w !! i = Some d ∧
              Reply_Datapoints (Send_reply s) = [stamp (now i) d].
Proof.
  split; [apply Write_sent_concat|].
  split; [intros He; by rewrite Write_sent_concat, He|].
  intros s Hs. apply Write_sent_elem in Hs.
  destruct Hs as (i & d & ts & t & tr & Hi & _ & _ & _ & ->).
  simpl. eauto.
Qed.

(** [publish] sends nothing for a key without bucket.  For a key with a
    bucket in a reachable store it sends exactly one reply per entry of the
    bucket, in bucket order, each to the channel of the entry's tracking and
    under that tracking's request id, holding the one datapoint made of the
    key's measurement, the value and the timestamp. *)
Theorem publish_per_entry m key value timestamp :
  reachable m →
  (subscription m !! key = None →
   publish (subscription m) (heap m) key value timestamp = []) ∧
  (∀ ts, subscription m !! key = Some ts →
     publish (subscription m) (heap m) key value timestamp =
     (λ tr, mkSend (Tracking_reply tr)
              (mkReply (Tracking_requestId tr) (Key_Node key)
                 [mkData (Key_Measurement key) value timestamp]))
     <$> omap (λ t, heap m !! t) ts ∧
     length (publish (subscription m) (heap m) key value timestamp)
     = length ts).
Proof.
  intros Hreach. destruct (reachable_inv m Hreach) as [_ [Hclosed _]].
  unfold publish. split; [by intros ->|].
  intros ts Hts. rewrite Hts. split; [apply publish_loop_cells|].
  rewrite publish_loop_cells, length_fmap. apply omap_allocated.
  intros t Ht. by eapply Hclosed.
Qed.

Lemma publish_per_entry_witness :
  length (publish (subscription sample_store) (heap sample_store)
            (mkKey "n" "m") "x" 9) = 1%nat.
Proof.
  assert (reachable sample_store) as Hreach by (by exists sample_ops).
  destruct (publish_per_entry sample_store (mkKey "n" "m") "x" 9 Hreach)
    as [_ Hsome].
  destruct (Hsome [0%nat]) as [_ Hlen]; [by vm_compute|exact Hlen].
Defined.

(** ** What a read returns *)

(** In a reachable store the reply of [ReadImmediate] names, in request
    order, exactly the requested measurements that are stored for the node:
    each datapoint of the reply carries the name it was asked under. *)
Theorem ReadImmediate_names m r bucket :
  reachable m →
  datastore m !! Request_Node r = Some bucket →
  ∃ data,
    out_sent (ReadImmediate m r) =
      [mkSend (Request_ReplyChan r) (mkReply "" (Request_Node r) data)] ∧
    Data_Measurement <$> data =
      filter (λ me, is_Some (bucket !! me)) (Request_Measurements r).
Proof.
  intros Hreach Hb. destruct (reachable_inv m Hreach) as [Hkeyed _].
  specialize (Hkeyed _ _ Hb).
  unfold ReadImmediate. rewrite Hb. eexists. split; [done|].
  rewrite read_loop_omap. simpl.
  induction (Request_Measurements r) as [|me mes IH]; [done|].
  simpl. rewrite filter_cons. case_decide as Hme.
  - destruct Hme as [d E]. rewrite E. simpl.
    f_equal; [by apply Hkeyed|exact IH].
  - destruct (bucket !! me) eqn:E; [|done]. exfalso. eauto.
Qed.

Lemma ReadImmediate_names_witness :
  ∃ data,
    out_sent (ReadImmediate sample_store (mkRequest "n" ["k"; "q"; "m"] 2%nat))
      = [mkSend 2%nat (mkReply "" "n" data)] ∧
    Data_Measurement <$> data =
      filter (λ me, is_Some
                (({[ "m"%string := mkData "m" "v" 5;
                     "k"%string := mkData "k" "w" 1700000000 ]}
                  : gmap string Data) !! me))
        ["k"; "q"; "m"]%string.
Proof.
  assert (reachable sample_store) as Hreach by (by exists sample_ops).
  apply (ReadImmediate_names sample_store
           (mkRequest "n" ["k"; "q"; "m"] 2%nat) _ Hreach).
  by vm_compute.
Defined.

(** ** Trackings *)

Lemma step_heap_prefix m op : heap m `prefix_of` heap (step m op).
Proof.
  destruct op as [r|r|clk w|rid| |node]; simpl; try done.
  - destruct (datastore m !! Request_Node r) eqn:E.
    + rewrite Subscribe_found by eauto. simpl. by apply prefix_app_r.
    + by rewrite Subscribe_missing.
  - unfold ReadImmediate. by case_match.
  - by rewrite Write_unfold.
  - unfold Cancel. by case_match.
Qed.

Lemma run_heap_prefix ops : ∀ m, heap m `prefix_of` heap (run ops m).
Proof.
  induction ops as [|op ops IH]; intros m; [done|].
  etrans; [apply (step_heap_prefix m op)|apply IH].
Qed.

(** A tracking never changes once its [Subscribe] has returned: whatever
    calls follow, the cell keeps its request id, its channel and its key
    list (also through [Cancel] and through the pruning of its keys). *)
Theorem tracking_cells_fixed ops m t tr :
  heap m !! t = Some tr → heap (run ops m) !! t = Some tr.
Proof. intros Ht. by eapply prefix_lookup_Some, run_heap_prefix. Qed.

Lemma tracking_cells_fixed_witness :
  heap (run [OpCancel "REQ0000002"; OpWrite clock (mkWrite "n" [])]
          sample_store) !! 0%nat
  = Some (mkTracking "REQ0000002" 7%nat [mkKey "n" "m"]).
Proof.
  apply (tracking_cells_fixed
           [OpCancel "REQ0000002"; OpWrite clock (mkWrite "n" [])]
           sample_store 0%nat).
  by vm_compute.
Defined.

(** [Subscribe] only adds.  On both of its paths it sends nothing and leaves
    the value table alone; every bucket of the index keeps its entries in
    their order, new ones going to the end; every cell stays; and the
    tracking table changes at most under the id just drawn. *)
Theorem Subscribe_only_adds m r :
  out_sent (Subscribe m r) = [] ∧
  datastore (out_store (Subscribe m r)) = datastore m ∧
  heap m `prefix_of` heap (out_store (Subscribe m r)) ∧
  (∀ key ts, subscription m !! key = Some ts →
     ∃ extra,
       subscription (out_store (Subscribe m r)) !! key = Some (ts ++ extra)) ∧
  (∀ rid, rid ≠ (requestId m).1 →
     tracking (out_store (Subscribe m r)) !! rid = tracking m !! rid).
Proof.
  destruct (datastore m !! Request_Node r) eqn:E.
  - rewrite Subscribe_found by eauto. simpl.
    split; [done|]. split; [done|]. split; [by apply prefix_app_r|]. split.
    + intros key ts Hts. rewrite subscribe_loop_index, Hts. simpl.
      case_decide; [eauto|]. exists []. by rewrite app_nil_r.
    + intros rid Hrid. by rewrite lookup_insert_ne.
  - rewrite Subscribe_missing by done. simpl.
    split; [done|]. split; [done|]. split; [done|]. split; [|done].
    intros key ts Hts. exists []. by rewrite app_nil_r.
Qed.

Lemma Subscribe_linked m r : linked m → linked (out_store (Subscribe m r)).
Proof.
  intros (Htrack & Hsub & Hcell).
  destruct (datastore m !! Request_Node r) as [bucket|] eqn:E;
    [|by rewrite Subscribe_missing].
  rewrite Subscribe_found by eauto. simpl.
  split; [|split]; simpl.
  - intros rid t. rewrite lookup_insert. case_decide as Hrid.
    + intros [= <-]. eexists. split; [by apply list_lookup_middle|].
      by rewrite <- Hrid.
    + intros Ht. destruct (Htrack _ _ Ht) as (tr & Htr & Hid).
      exists tr. split; [by apply lookup_app_l_Some|done].
  - intros key ts t. rewrite subscribe_loop_index. case_decide as Hkey.
    + intros [= <-]. rewrite elem_of_app. intros [Hin|Hin].
      * destruct (subscription m !! key) as [old|] eqn:Eold; simpl in Hin;
          [|by apply elem_of_nil in Hin].
        destruct (Hsub _ _ _ Eold Hin) as (tr & Htr & Hk).
        exists tr. split; [by apply lookup_app_l_Some|done].
      * apply elem_of_replicate in Hin. destruct Hin as [-> _].
        eexists. split; [by apply list_lookup_middle|]. simpl.
        apply list_elem_of_fmap. exists (Key_Measurement key).
        destruct Hkey as [<- Hme]. split; [by destruct key|done].
    + intros Hts Hin. destruct (Hsub _ _ _ Hts Hin) as (tr & Htr & Hk).
      exists tr. split; [by apply lookup_app_l_Some|done].
  - intros t tr Ht. apply lookup_app_Some in Ht.
    destruct Ht as [Ht|[_ Ht]]; [by eapply Hcell|].
    apply list_lookup_singleton_Some in Ht. destruct Ht as [_ <-]. simpl.
    split; [by eexists|]. exists (Request_Node r). split; [eauto|].
    intros k Hk. apply list_elem_of_fmap in Hk.
    by destruct Hk as (me & -> & _).
Qed.

Lemma step_linked m op : linked m → linked (step m op).
Proof.
  destruct op as [r|r|clk w|rid| |node]; simpl; try done.
  - apply Subscribe_linked.
  - unfold ReadImmediate. by case_match.
  - intros (Htrack & Hsub & Hcell).
    split; [|split].
    + by rewrite Write_unfold.
    + intros key ts t Hts.
      destruct (Write_index_shrinks m clk w key) as [E1|E1];
        rewrite E1 in Hts; [done|].
      rewrite Write_unfold. simpl. by apply Hsub.
    + intros t tr Ht.
      assert (heap m !! t = Some tr) as Ht'
        by (by rewrite Write_unfold in Ht).
      destruct (Hcell _ _ Ht') as (Hid & n & Hn & Hkeys).
      split; [done|]. exists n. split; [|done].
      apply (step_datastore_nodes m (OpWrite clk w)). by left.
  - intros (Htrack & Hsub & Hcell). unfold Cancel.
    destruct (tracking m !! rid); [|done].
    split; [|done]. simpl. intros rid' t Ht.
    apply lookup_delete_Some in Ht. destruct Ht as [_ Ht]. by apply Htrack.
Qed.

Lemma reachable_linked m : reachable m → linked m.
Proof.
  intros [ops ->].
  assert (∀ m, linked m → linked (run ops m)) as Hrun.
  { induction ops as [|op ops IH]; intros m Hm; [done|].
    apply IH, step_linked, Hm. }
  apply Hrun. split; [|split]; simpl.
  - intros rid t. by rewrite lookup_empty.
  - intros key ts t. by rewrite lookup_empty.
  - intros t tr Ht. by rewrite lookup_nil in Ht.
Qed.

(** In a reachable store the three structures agree.  An id filed in the
    tracking table leads to a tracking that carries that id.  A tracking in
    the bucket of a key lists that key among its own keys.  The keys of one
    tracking name one node, which the value table holds, and its id is the
    rendering of a counter value. *)
Theorem reachable_store_linked m :
  reachable m →
  (∀ rid t, tracking m !! rid = Some t →
     ∃ tr, heap m !! t = Some tr ∧ Tracking_requestId tr = rid) ∧
  (∀ key ts t, subscription m !! key = Some ts → t ∈ ts →
     ∃ tr, heap m !! t = Some tr ∧ key ∈ Tracking_subs tr) ∧
  (∀ t tr, heap m !! t = Some tr →
     (∃ z, Tracking_requestId tr = id_of z) ∧
     ∃ n, is_Some (datastore m !! n) ∧
          ∀ k, k ∈ Tracking_subs tr → Key_Node k = n).
Proof. apply reachable_linked. Qed.

Lemma reachable_store_linked_witness :
  ∃ tr, heap sample_store !! 0%nat = Some tr ∧
        Tracking_requestId tr = "REQ0000002"%string.
Proof.
  assert (reachable sample_store) as Hreach by (by exists sample_ops).
  destruct (reachable_store_linked sample_store Hreach) as (Htrack & _ & _).
  apply Htrack. by vm_compute.
Defined.



(** ** Ids and the tracking table *)

Lemma step_tracking_ids m op rid :
  is_Some (tracking (step m op) !! rid) →
  is_Some (tracking m !! rid) ∨ rid ∈ op_ids m op.
Proof.
  destruct op as [r|r|clk w|rid'| |node]; simpl; auto.
  - destruct (datastore m !! Request_Node r) eqn:E.
    + rewrite Subscribe_found by eauto. simpl. rewrite lookup_insert.
      case_decide as Hrid; [|auto]. intros _. right. rewrite Hrid.
      apply list_elem_of_here.
    + rewrite Subscribe_missing by done. auto.
  - unfold ReadImmediate. case_match; auto.
  - rewrite Write_unfold. auto.
  - unfold Cancel. destruct (tracking m !! rid'); [|auto]. simpl.
    rewrite lookup_delete. case_decide; [by intros [? ?]|auto].
Qed.

Lemma run_tracking_ids ops : ∀ m rid,
  is_Some (tracking (run ops m) !! rid) →
  is_Some (tracking m !! rid) ∨ rid ∈ issued_ids ops m.
Proof.
  induction ops as [|op ops IH]; intros m rid Hrid; [auto|].
  simpl. rewrite elem_of_app.
  destruct (IH (step m op) rid Hrid) as [H|H]; [|auto].
  destruct (step_tracking_ids m op rid H); auto.
Qed.

(** Below the top of the counter's range the next id of a run is new: no
    earlier call was given it and the tracking table does not hold it. *)
Lemma next_id_fresh ops :
  Z.of_nat (minted ops) < 2 ^ 63 - 1 →
  ((requestId (run ops NewInMemoryStore)).1
     ∉ issued_ids ops NewInMemoryStore) ∧
  tracking (run ops NewInMemoryStore)
    !! (requestId (run ops NewInMemoryStore)).1 = None.
Proof.
  intros Hmax.
  assert ((requestId (run ops NewInMemoryStore)).1
          ∉ issued_ids ops NewInMemoryStore) as Hfresh.
  { destruct (run_issued ops NewInMemoryStore) as [Hnext Hids];
      [done|simpl; lia|]. simpl in Hnext, Hids. simpl.
    rewrite Hnext, Hids, wrap64_small by lia.
    intros Hin. apply list_elem_of_fmap in Hin.
    destruct Hin as (i & Hi & Hin). apply elem_of_seq in Hin.
    apply (id_of_inj (Z.of_nat (minted ops) + 1)) in Hi. lia. }
  split; [done|]. apply eq_None_not_Some. intros Hsome.
  apply run_tracking_ids in Hsome. destruct Hsome as [Hsome|Hin]; [|done].
  simpl in Hsome. rewrite lookup_empty in Hsome. by destruct Hsome.
Qed.

(** Subscribing and at once cancelling with the returned id: in a run that
    has not exhausted the counter, the cancel succeeds and the tracking
    table is again what it was before the subscribe, but the index keeps
    what the subscribe put in: the new tracking is still in the bucket of
    every requested key. *)
Theorem Subscribe_then_Cancel ops r :
  Z.of_nat (minted ops) < 2 ^ 63 - 1 →
  written (Request_Node r) ops →
  (Cancel (out_store (Subscribe (run ops NewInMemoryStore) r))
     (Reply_RequestId (out_reply (Subscribe (run ops NewInMemoryStore) r)))).1
  = None ∧
  tracking
    (Cancel (out_store (Subscribe (run ops NewInMemoryStore) r))
       (Reply_RequestId (out_reply (Subscribe (run ops NewInMemoryStore) r)))).2
  = tracking (run ops NewInMemoryStore) ∧
  subscription
    (Cancel (out_store (Subscribe (run ops NewInMemoryStore) r))
       (Reply_RequestId (out_reply (Subscribe (run ops NewInMemoryStore) r)))).2
  = subscription (out_store (Subscribe (run ops NewInMemoryStore) r)) ∧
  ∀ me, me ∈ Request_Measurements r →
    length (heap (run ops NewInMemoryStore))
    ∈ default []
        (subscription
           (Cancel (out_store (Subscribe (run ops NewInMemoryStore) r))
              (Reply_RequestId
                 (out_reply (Subscribe (run ops NewInMemoryStore) r)))).2
         !! mkKey (Request_Node r) me).
Proof.
  intros Hmax Hw. apply run_written in Hw.
  destruct (next_id_fresh ops Hmax) as [_ Hnone].
  rewrite Subscribe_found by done. unfold Cancel. simpl.
  rewrite lookup_insert_eq. simpl.
  split; [done|]. split; [by apply delete_insert_id|]. split; [done|].
  intros me Hme. rewrite subscribe_loop_index. simpl.
  rewrite decide_True by done. simpl. apply elem_of_app. right.
  apply elem_of_replicate. split; [done|].
  pose proof (occurrences_present me _ Hme). lia.
Qed.

Lemma Subscribe_then_Cancel_witness :
  (Cancel (out_store (Subscribe (run written_ops NewInMemoryStore)
                        (mkRequest "n" ["m"] 4%nat)))
     (Reply_RequestId
        (out_reply (Subscribe (run written_ops NewInMemoryStore)
                      (mkRequest "n" ["m"] 4%nat))))).1 = None.
Proof.
  apply (Subscribe_then_Cancel written_ops (mkRequest "n" ["m"] 4%nat)).
  - by vm_compute.
  - exists clock, (mkWrite "n" [mkData "m" "v" 5]).
    split; [apply list_elem_of_here|done].
Defined.

(** The request id that [Write] returns belongs to no subscription: in a
    run that has not exhausted the counter, a [Cancel] with it fails. *)
Theorem Write_id_not_cancellable ops now w :
  Z.of_nat (minted ops) < 2 ^ 63 - 1 →
  (Cancel (out_store (Write (run ops NewInMemoryStore) now w))
     (Reply_RequestId (out_reply (Write (run ops NewInMemoryStore) now w)))).1
  = Some ("No subscription found for "
          +:+ Reply_RequestId
                (out_reply (Write (run ops NewInMemoryStore) now w))).
Proof.
  intros Hmax. destruct (next_id_fresh ops Hmax) as [_ Hnone].
  rewrite Write_unfold. unfold Cancel. simpl in *. by rewrite Hnone.
Qed.

Lemma Write_id_not_cancellable_witness :
  (Cancel (out_store (Write (run sample_ops NewInMemoryStore) clock
                        (mkWrite "n" [mkData "m" "x" 9])))
     (Reply_RequestId
        (out_reply (Write (run sample_ops NewInMemoryStore) clock
                      (mkWrite "n" [mkData "m" "x" 9]))))).1
  = Some ("No subscription found for "
          +:+ Reply_RequestId
                (out_reply (Write (run sample_ops NewInMemoryStore) clock
                              (mkWrite "n" [mkData "m" "x" 9])))).
Proof.
  apply (Write_id_not_cancellable sample_ops clock
           (mkWrite "n" [mkData "m" "x" 9])).
  by vm_compute.
Defined.

Lemma wrap64_range z : - 2 ^ 63 ≤ wrap64 z < 2 ^ 63.
Proof.
  unfold wrap64. pose proof (Z.mod_pos_bound (z + 2 ^ 63) (2 ^ 64)). lia.
Qed.

Lemma wrap64_succ_inj a b :
  - 2 ^ 63 ≤ a < 2 ^ 63 → - 2 ^ 63 ≤ b < 2 ^ 63 →
  wrap64 (a + 1) = wrap64 (b + 1) → a = b.
Proof.
  unfold wrap64. intros Ha Hb Hab.
  assert ((a + 1 + 2 ^ 63) `mod` 2 ^ 64 = (b + 1 + 2 ^ 63) `mod` 2 ^ 64)
    as Hmod by lia.
  clear Hab. revert Hmod.
  destruct (decide (a = 2 ^ 63 - 1)) as [->|Ha'];
    destruct (decide (b = 2 ^ 63 - 1)) as [->|Hb']; [done|..].
  - rewrite (Z.mod_small (b + 1 + 2 ^ 63)) by lia.
    change ((2 ^ 63 - 1 + 1 + 2 ^ 63) `mod` 2 ^ 64) with 0. lia.
  - rewrite (Z.mod_small (a + 1 + 2 ^ 63)) by lia.
    change ((2 ^ 63 - 1 + 1 + 2 ^ 63) `mod` 2 ^ 64) with 0. lia.
  - rewrite !Z.mod_small by lia. lia.
Qed.

(** The id tells the counter.  After a draw the counter is within the
    [int64] range; the digits after ["REQ"] read back as the new counter
    value, sign included; and two stores whose counters are within range
    and differ draw different ids. *)
Theorem request_id_reads_back m1 m2 :
  - 2 ^ 63 ≤ nextId m1 < 2 ^ 63 →
  - 2 ^ 63 ≤ nextId m2 < 2 ^ 63 →
  - 2 ^ 63 ≤ nextId (requestId m1).2 < 2 ^ 63 ∧
  (∃ digits, (requestId m1).1 = "REQ" +:+ digits ∧
             parse_signed digits = Some (nextId (requestId m1).2)) ∧
  ((requestId m1).1 = (requestId m2).1 → nextId m1 = nextId m2).
Proof.
  intros H1 H2. simpl. split; [apply wrap64_range|]. split.
  - eexists. split; [done|]. apply parse_signed_fmt.
  - intros [= Hid]. apply fmt_07d_inj in Hid. by apply wrap64_succ_inj.
Qed.

Lemma request_id_reads_back_witness :
  ∃ digits,
    (requestId (drawn (2 ^ 63 - 1))).1 = "REQ" +:+ digits ∧
    parse_signed digits = Some (nextId (requestId (drawn (2 ^ 63 - 1))).2).
Proof.
  apply (request_id_reads_back (drawn (2 ^ 63 - 1)) (drawn 41));
    by vm_compute.
Defined.

(** ** keymap and the pruning loop *)

(** [keymap] gives the set of the measurement names of a slice: a name is in
    it exactly when some datapoint of the slice carries it, so order and
    repetition in the slice do not matter, and the empty slice gives the
    empty set. *)
Theorem keymap_names dps1 dps2 :
  (∀ x, x ∈ keymap dps1 ↔ ∃ d, d ∈ dps1 ∧ Data_Measurement d = x) ∧
  keymap [] = ∅ ∧
  keymap (dps1 ++ dps2) = keymap dps1 ∪ keymap dps2 ∧
  (dps1 ≡ₚ dps2 → keymap dps1 = keymap dps2).
Proof.
  split; [|split; [done|split]].
  - intros x. rewrite elem_of_keymap. unfold names.
    rewrite list_elem_of_fmap. naive_solver.
  - apply set_eq. intros x.
    rewrite elem_of_union, !elem_of_keymap. unfold names.
    by rewrite fmap_app, elem_of_app.
  - intros Hperm. apply set_eq. intros x.
    rewrite !elem_of_keymap. unfold names. by rewrite Hperm.
Qed.

(** Go does not fix the order in which [range] visits a map.  For the
    bucket of a node in a reachable store the pruning loop of [Write] gives
    the same bucket and the same index in every order: the bucket keeps
    exactly the entries whose name is in the set, and the index loses
    exactly the buckets of the node's other stored names. *)
Theorem pruning_any_order m n node datapoints subs entries :
  reachable m →
  datastore m !! n = Some node →
  entries ≡ₚ map_to_list node →
  prune_range n datapoints entries node subs =
    prune_range n datapoints (map_to_list node) node subs ∧
  (prune_range n datapoints entries node subs).1 =
    filter (λ kv, kv.1 ∈ datapoints) node ∧
  ∀ key,
    (prune_range n datapoints entries node subs).2 !! key =
    if decide (Key_Node key = n ∧ is_Some (node !! Key_Measurement key)
               ∧ Key_Measurement key ∉ datapoints)
    then None else subs !! key.
Proof.
  intros Hreach Hnode Hperm.
  destruct (reachable_inv m Hreach) as [Hkeyed _].
  specialize (Hkeyed _ _ Hnode).
  split; [by apply prune_range_order|].
  rewrite (prune_range_order n datapoints node subs entries) by done.
  destruct (prune_range_spec n datapoints (map_to_list node) node subs
    (entries_keyed node Hkeyed)) as [H1 H2].
  split.
  - apply map_eq. intros k. rewrite H1, map_lookup_filter.
    pose proof (elem_of_entries node k) as He.
    destruct (node !! k) as [d|] eqn:E; simpl.
    + case_decide as Hd.
      * rewrite option_guard_False; [done|]. simpl. naive_solver.
      * rewrite option_guard_True; [done|]. simpl.
        destruct (decide (k ∈ datapoints)); [done|].
        exfalso. apply Hd. split; [|done]. apply He. eauto.
    + by case_decide.
  - intros key. rewrite H2.
    pose proof (elem_of_entries node (Key_Measurement key)) as He.
    repeat case_decide; try done; exfalso; naive_solver.
Qed.

Lemma pruning_any_order_witness :
  prune_range "n" {[ "m"%string ]}
    (reverse (map_to_list (default ∅ (datastore sample_store !! "n"%string))))
    (default ∅ (datastore sample_store !! "n"%string))
    (subscription sample_store)
  = prune_range "n" {[ "m"%string ]}
      (map_to_list (default ∅ (datastore sample_store !! "n"%string)))
      (default ∅ (datastore sample_store !! "n"%string))
      (subscription sample_store).
Proof.
  assert (reachable sample_store) as Hreach by (by exists sample_ops).
  apply (pruning_any_order sample_store "n"
           (default ∅ (datastore sample_store !! "n"%string))
           {[ "m"%string ]} (subscription sample_store)
           (reverse
              (map_to_list (default ∅ (datastore sample_store !! "n"%string))))
           Hreach).
  - by vm_compute.
  - apply reverse_Permutation.
Defined.

(** ** Writing the same batch again *)

Lemma write_loop_given wnode now now' subs subs' hp hp' dps :
  (∀ d, d ∈ dps → 1 ≤ Data_Timestamp d) →
  ∀ i0 i0' node node' k,
    k ∈ names dps →
    (write_loop wnode now subs hp i0 dps node).1 !! k =
    (write_loop wnode now' subs' hp' i0' dps node').1 !! k.
Proof.
  induction dps as [|d dps IH]; intros Hts i0 i0' node node' k Hk.
  - by apply elem_of_nil in Hk.
  - simpl.
    destruct (write_loop wnode now _ _ _ dps _) as [n1 o1] eqn:E1.
    destruct (write_loop wnode now' _ _ _ dps _) as [n2 o2] eqn:E2. simpl.
    replace n1 with (n1, o1).1 by done. replace n2 with (n2, o2).1 by done.
    rewrite <- E1, <- E2. clear E1 E2.
    assert (∀ d', d' ∈ dps → 1 ≤ Data_Timestamp d') as Hts'
      by (intros; apply Hts; set_solver).
    destruct (decide (k ∈ names dps)) as [Hin|Hout]; [by apply IH|].
    rewrite !write_loop_other by done.
    rewrite !stamp_given by (apply Hts; set_solver).
    unfold names in Hk. rewrite fmap_cons, elem_of_cons in Hk.
    destruct Hk as [->|Hk]; [|done]. by rewrite !lookup_insert_eq.
Qed.

(** A write whose node's bucket already holds exactly what the batch
    stores leaves the value table and the index as they are. *)
Lemma Write_settled m now w bucket :
  datastore m !! Write_Node w = Some bucket →
  keyed bucket →
  (∀ k, is_Some (bucket !! k) → k ∈ names (Write_Datapoints w)) →
  (∀ subs k, k ∈ names (Write_Datapoints w) →
     (write_loop (Write_Node w) now subs (heap m) 0 (Write_Datapoints w)
        bucket).1 !! k = bucket !! k) →
  datastore (out_store (Write m now w)) = datastore m ∧
  subscription (out_store (Write m now w)) = subscription m.
Proof.
  intros Hb Hkeyed Hdom Hsame. rewrite Write_unfold. simpl. rewrite Hb. simpl.
  destruct (prune_range_spec (Write_Node w) (keymap (Write_Datapoints w))
    (map_to_list bucket) bucket (subscription m) (entries_keyed _ Hkeyed))
    as [H1 H2].
  assert ((prune_range (Write_Node w) (keymap (Write_Datapoints w))
             (map_to_list bucket) bucket (subscription m)).1 = bucket) as E1.
  { apply map_eq. intros k. rewrite H1. case_decide as Hd; [|done].
    destruct Hd as [Hin Hout]. exfalso. apply Hout.
    rewrite elem_of_keymap. apply Hdom. by apply elem_of_entries. }
  assert ((prune_range (Write_Node w) (keymap (Write_Datapoints w))
             (map_to_list bucket) bucket (subscription m)).2
          = subscription m) as E2.
  { apply map_eq. intros key. rewrite H2. case_decide as Hd; [|done].
    destruct Hd as (_ & _ & Hsome & Hout). exfalso. apply Hout.
    rewrite elem_of_keymap. by apply Hdom. }
  rewrite E1, E2. split; [|done].
  apply insert_id. rewrite Hb. f_equal. apply map_eq. intros k.
  destruct (decide (k ∈ names (Write_Datapoints w))) as [Hin|Hout].
  - symmetry. by apply Hsame.
  - by rewrite write_loop_other.
Qed.

(** Writing is idempotent on the tables.  In a reachable store, when every
    datapoint of the batch carries its own timestamp (at least 1), writing
    the batch to the node a second time right after the first leaves the
    value table, the index, the tracking table and the cells exactly as the
    first write left them, whatever the clock says. *)
Theorem Write_twice m now now' w :
  reachable m →
  (∀ d, d ∈ Write_Datapoints w → 1 ≤ Data_Timestamp d) →
  datastore (out_store (Write (out_store (Write m now w)) now' w))
    = datastore (out_store (Write m now w)) ∧
  subscription (out_store (Write (out_store (Write m now w)) now' w))
    = subscription (out_store (Write m now w)) ∧
  tracking (out_store (Write (out_store (Write m now w)) now' w))
    = tracking (out_store (Write m now w)) ∧
  heap (out_store (Write (out_store (Write m now w)) now' w))
    = heap (out_store (Write m now w)).
Proof.
  intros Hreach Hts.
  assert (reachable (out_store (Write m now w))) as Hreach1
    by apply (reachable_step m (OpWrite now w) Hreach).
  destruct (reachable_inv _ Hreach1) as [Hkeyed1 _].
  destruct (Write_bucket m now w) as (bucket & Hb & Hin & Hout).
  specialize (Hout (reachable_keyed m (Write_Node w) Hreach)).
  assert (datastore (out_store (Write (out_store (Write m now w)) now' w))
            = datastore (out_store (Write m now w)) ∧
          subscription (out_store (Write (out_store (Write m now w)) now' w))
            = subscription (out_store (Write m now w))) as [Hd Hs].
  { apply (Write_settled _ now' w bucket Hb).
    - by eapply Hkeyed1.
    - intros k Hk.
      destruct (decide (k ∈ names (Write_Datapoints w))); [done|].
      rewrite Hout in Hk by done. by destruct Hk.
    - intros subs k Hk.
      assert (bucket !! k =
              (write_loop (Write_Node w) now
                 (prune_range (Write_Node w) (keymap (Write_Datapoints w))
                    (map_to_list (default ∅ (datastore m !! Write_Node w)))
                    (default ∅ (datastore m !! Write_Node w))
                    (subscription m)).2
                 (heap m) 0 (Write_Datapoints w)
                 (prune_range (Write_Node w) (keymap (Write_Datapoints w))
                    (map_to_list (default ∅ (datastore m !! Write_Node w)))
                    (default ∅ (datastore m !! Write_Node w))
                    (subscription m)).1).1 !! k) as ->.
      { revert Hb. rewrite Write_unfold. simpl. rewrite lookup_insert_eq.
        by intros [= <-]. }
      by apply write_loop_given. }
  split; [done|]. split; [done|]. by rewrite (Write_unfold _ now' w).
Qed.

Lemma Write_twice_witness :
  datastore
    (out_store
       (Write
          (out_store (Write sample_store clock (mkWrite "n" [mkData "z" "1" 4])))
          (λ _, 1800000000) (mkWrite "n" [mkData "z" "1" 4])))
  = datastore
      (out_store (Write sample_store clock (mkWrite "n" [mkData "z" "1" 4]))).
Proof.
  assert (reachable sample_store) as Hreach by (by exists sample_ops).
  apply (Write_twice sample_store clock (λ _, 1800000000)
           (mkWrite "n" [mkData "z" "1" 4]) Hreach).
  intros d Hd. apply list_elem_of_singleton in Hd. subst d. simpl. lia.
Defined.

(** ** Several subscribers *)

Lemma Write_after_Subscribe m r now d :
  closed m →
  is_Some (datastore m !! Request_Node r) →
  out_sent (Write (out_store (Subscribe m r)) now
              (mkWrite (Request_Node r) [d])) =
  out_sent (Write m now (mkWrite (Request_Node r) [d]))
  ++ replicate (occurrences (Data_Measurement d) (Request_Measurements r))
       (mkSend (Request_ReplyChan r)
          (mkReply (requestId m).1 (Request_Node r) [stamp (now 0%nat) d])).
Proof.
  intros Hclosed Hnode.
  assert (default []
            (subscription (out_store (Subscribe m r))
               !! mkKey (Request_Node r) (Data_Measurement d)) =
          default []
            (subscription m !! mkKey (Request_Node r) (Data_Measurement d))
          ++ replicate
               (occurrences (Data_Measurement d) (Request_Measurements r))
               (length (heap m))) as Hbucket
    by (by apply (Subscribe_bucket m r (mkKey _ _))).
  rewrite !Write_single_sent. unfold ptr in *.
  rewrite Hbucket, publish_loop_app.
  rewrite Subscribe_found by done. simpl. f_equal.
  - apply publish_loop_grow. intros t Ht.
    by apply (closed_bucket m (mkKey (Request_Node r) (Data_Measurement d))).
  - erewrite publish_loop_replicate by apply list_lookup_middle, eq_refl.
    simpl. rewrite <- (stamp_Measurement (now 0%nat) d) at 2.
    by rewrite data_eta.
Qed.

Lemma wrap64_succ_ne z : wrap64 (wrap64 z + 1) ≠ wrap64 z.
Proof.
  pose proof (wrap64_range z) as Hz.
  destruct (decide (wrap64 z = 2 ^ 63 - 1)) as [E|E].
  - rewrite E. by vm_compute.
  - rewrite (wrap64_small (wrap64 z + 1)) by lia. lia.
Qed.

(** Two subscribers of one key.  In a reachable store, after two
    subscriptions on a written node that each name the measurement of [d]
    once, the write of [d] sends what it would have sent before them and
    then one reply to the first subscriber and one to the second, in the
    order in which they subscribed, each under its own request id; the two
    ids differ. *)
Theorem two_subscribers m r1 r2 now d :
  reachable m →
  is_Some (datastore m !! Request_Node r1) →
  Request_Node r2 = Request_Node r1 →
  occurrences (Data_Measurement d) (Request_Measurements r1) = 1%nat →
  occurrences (Data_Measurement d) (Request_Measurements r2) = 1%nat →
  out_sent
    (Write (out_store (Subscribe (out_store (Subscribe m r1)) r2)) now
       (mkWrite (Request_Node r1) [d])) =
  out_sent (Write m now (mkWrite (Request_Node r1) [d]))
  ++ [mkSend (Request_ReplyChan r1)
        (mkReply (Reply_RequestId (out_reply (Subscribe m r1)))
           (Request_Node r1) [stamp (now 0%nat) d]);
      mkSend (Request_ReplyChan r2)
        (mkReply
           (Reply_RequestId
              (out_reply (Subscribe (out_store (Subscribe m r1)) r2)))
           (Request_Node r1) [stamp (now 0%nat) d])] ∧
  Reply_RequestId (out_reply (Subscribe m r1))
  ≠ Reply_RequestId (out_reply (Subscribe (out_store (Subscribe m r1)) r2)).
Proof.
  intros Hreach Hnode Hr2 Hocc1 Hocc2.
  assert (reachable (out_store (Subscribe m r1))) as Hreach1
    by apply (reachable_step m (OpSubscribe r1) Hreach).
  destruct (reachable_inv m Hreach) as [_ Hclosed].
  destruct (reachable_inv _ Hreach1) as [_ Hclosed1].
  assert (is_Some (datastore (out_store (Subscribe m r1)) !! Request_Node r2))
    as Hnode1.
  { rewrite Hr2, Subscribe_found by done. done. }
  split.
  - rewrite <- Hr2 at 1.
    rewrite (Write_after_Subscribe _ r2 now d Hclosed1 Hnode1), Hocc2.
    rewrite Hr2, (Write_after_Subscribe m r1 now d Hclosed Hnode), Hocc1.
    rewrite <- app_assoc. simpl.
    rewrite (Subscribe_found (out_store (Subscribe m r1)) r2 Hnode1).
    by rewrite (Subscribe_found m r1) by done.
  - rewrite (Subscribe_found (out_store (Subscribe m r1)) r2 Hnode1).
    rewrite (Subscribe_found m r1) by done. simpl.
    intros [= Hid]. apply fmt_07d_inj in Hid.
    by apply (wrap64_succ_ne (nextId m + 1)).
Qed.

Lemma two_subscribers_witness :
  out_sent
    (Write
       (out_store
          (Subscribe
             (out_store (Subscribe written_store (mkRequest "n" ["m"] 1%nat)))
             (mkRequest "n" ["q"; "m"] 2%nat)))
       clock (mkWrite "n" [mkData "m" "x" 9]))
  = [mkSend 1%nat (mkReply "REQ0000002" "n" [mkData "m" "x" 9]);
     mkSend 2%nat (mkReply "REQ0000003" "n" [mkData "m" "x" 9])].
Proof.
  assert (reachable written_store) as Hreach by (by exists written_ops).
  destruct (two_subscribers written_store (mkRequest "n" ["m"] 1%nat)
              (mkRequest "n" ["q"; "m"] 2%nat) clock (mkData "m" "x" 9) Hreach)
    as [Hsent _]; [by vm_compute; eauto|reflexivity|by vm_compute..|].
  etrans; [exact Hsent|]. by vm_compute.
Defined.


(** ** Deliveries after a subscription *)





